(** * MSL core (JavaScript): key exchange schemes, message capabilities,
      the ECC crypto context and the JSON MSL array

    A shallow embedding of

    - [keyx/KeyExchangeScheme.js]: the scheme registry and
      [KeyExchangeScheme$getScheme];
    - [msg/MessageCapabilities.js]: [computeIntersection],
      [MessageCapabilities$intersection], the constructor [init] and
      [MessageCapabilities$parse];
    - the ECC crypto context ([EccCryptoContext]): [encrypt], [decrypt],
      [wrap], [unwrap], [verify];
    - the JSON MSL array ([JsonMslArray]): [getBytes].

    A [$] of a JavaScript identifier is written [_].  JavaScript exceptions
    are explicit: a computation that may throw returns a [Completion]. *)

From stdpp Require Import base option list gmap strings sorting.
From Stdlib Require Import ZArith Ascii DecimalString.

Open Scope string_scope.
Open Scope list_scope.
Set Warnings "-register-all".

(** ** JavaScript values, errors and completions *)

(** The values an MSL container holds, as the code tells them apart with
    [instanceof] and [typeof].  A number carries an integer payload only:
    no function here inspects a number beyond its type. *)
Inductive JsValue : Type :=
  | JsUndefined
  | JsNull
  | JsBoolean (b : bool)
  | JsNumber (n : Z)
  | JsString (s : string)            (* typeof value === 'string' *)
  | JsStringObject (s : string)      (* value instanceof String *)
  | JsUint8Array (bytes : list Byte.byte)
  | JsMslObject (fields : list (string * JsValue))
  | JsMslArray (elements : list JsValue).

(** The [MslError] constants the sources name. *)
Inductive MslError : Type :=
  | WRAP_NOT_SUPPORTED
  | UNWRAP_NOT_SUPPORTED
  | VERIFY_NOT_SUPPORTED
  | SIGNATURE_ERROR
  | MSL_PARSE_ERROR.

(** What a [throw] (or the engine) raises. *)
Inductive Exn : Type :=
  | JsError (message : string)
  | RangeError (message : string)
  | ReferenceError (identifier : string)
  | TypeError (message : string)
  | MslEncoderException (message : string)
  | MslEncodingException (error : MslError) (details : string) (cause : Exn)
  | MslCryptoException (error : MslError) (details : string).

Inductive Completion (A : Type) : Type :=
  | Normal (a : A)
  | Throw (e : Exn).
Arguments Normal {A} a.
Arguments Throw {A} e.

(** Sequencing: a [Throw] skips the rest of the block. *)
#[global] Instance Completion_bind : MBind Completion :=
  λ A B (k : A → Completion B) (c : Completion A),
    match c with
    | Normal a => k a
    | Throw e => Throw e
    end.

(** ** Plain objects used as maps

    [var o = {}] creates an object whose prototype is [Object.prototype]:
    a read [o[k]] finds an own property first and an inherited one
    otherwise.  The property names of [Object.prototype] (ECMAScript 2017,
    19.1.3 and B.2.2). *)
Definition Object_prototype : list string :=
  [ "constructor"; "hasOwnProperty"; "isPrototypeOf"; "propertyIsEnumerable";
    "toLocaleString"; "toString"; "valueOf"; "__proto__";
    "__defineGetter__"; "__defineSetter__"; "__lookupGetter__";
    "__lookupSetter__" ].

(** The outcome of a property read [o[k]]. *)
Inductive Property (V : Type) : Type :=
  | Own (v : V)
  | Inherited (k : string)   (* the built-in [Object.prototype[k]] *)
  | Absent.                  (* [undefined] *)
Arguments Own {V} v.
Arguments Inherited {V} k.
Arguments Absent {V}.

Definition Get {V} (o : gmap string V) (k : string) : Property V :=
  match o !! k with
  | Some v => Own v
  | None => if bool_decide (k ∈ Object_prototype) then Inherited k else Absent
  end.

(** [o[k] = v] for a primitive [v]: the inherited [__proto__] setter
    ignores a primitive, every other key becomes an own property. *)
Definition Put {V} (o : gmap string V) (k : string) (v : V) : gmap string V :=
  if bool_decide (k = "__proto__") then o else <[k := v]> o.

(** ** keyx/KeyExchangeScheme.js *)
Module KeyExchangeScheme.

(** A scheme object: [ref] is the object's identity (the order of
    allocation), [name] its one, non-writable property. *)
Record t : Type := { ref : nat; name : string }.

(** The closure's state: the [schemes] map and the allocation count.  The
    map is the object literal of line 31 with its entries: its prototype
    is [Object.prototype]. *)
Record State : Type := { schemes : gmap string t; allocated : nat }.

(** [new KeyExchangeScheme(name)], for a [name] other than [__proto__]:
    defines [name] on the new object and adds it to the map,
    [schemes[name] = this], an own entry.  (Under the name [__proto__]
    the assignment of line 46 would replace the prototype of the map
    instead of adding an entry; the script constructs no such scheme,
    and no property below constructs one.) *)
Definition new (name : string) (st : State) : t * State :=
  let this := {| ref := allocated st; name := name |} in
  (this, {| schemes := <[name := this]> (schemes st);
            allocated := S (allocated st) |}).

(** The members mixed into [KeyExchangeScheme]. *)
Record Members : Type := {
  ASYMMETRIC_WRAPPED : t;
  DIFFIE_HELLMAN : t;
  JWE_LADDER : t;
  JWK_LADDER : t;
  SYMMETRIC_WRAPPED : t
}.

(** The script's top level: [schemes = {}], then the five constructor
    calls of the object literal, in source order. *)
Definition initialization : Members * State :=
  let st := {| schemes := ∅; allocated := 0 |} in
  let '(aw, st) := new "ASYMMETRIC_WRAPPED" st in
  let '(dh, st) := new "DIFFIE_HELLMAN" st in
  let '(jwe, st) := new "JWE_LADDER" st in
  let '(jwk, st) := new "JWK_LADDER" st in
  let '(sw, st) := new "SYMMETRIC_WRAPPED" st in
  ({| ASYMMETRIC_WRAPPED := aw; DIFFIE_HELLMAN := dh; JWE_LADDER := jwe;
      JWK_LADDER := jwk; SYMMETRIC_WRAPPED := sw |}, st).

(** The names the script registers. *)
Definition scheme_names : list string :=
  [ "ASYMMETRIC_WRAPPED"; "DIFFIE_HELLMAN"; "JWE_LADDER"; "JWK_LADDER";
    "SYMMETRIC_WRAPPED" ].

Definition members : Members := fst initialization.
Definition registry : gmap string t := schemes (snd initialization).

(** A scheme object and a built-in are truthy, [undefined] is not. *)
Definition truthy (p : Property t) : bool :=
  match p with
  | Own _ | Inherited _ => true
  | Absent => false
  end.

(** What [getScheme] returns: a registered scheme, a value inherited
    from [Object.prototype], or [null]. *)
Inductive Result : Type :=
  | Scheme (s : t)
  | Builtin (k : string)
  | Null.

(** [return (schemes[name]) ? schemes[name] : null;] *)
Definition getScheme (schemes : gmap string t) (name : string) : Result :=
  if truthy (Get schemes name)
  then match Get schemes name with
       | Own s => Scheme s
       | Inherited k => Builtin k
       | Absent => Null
       end
  else Null.

End KeyExchangeScheme.

Definition KeyExchangeScheme_getScheme : string → KeyExchangeScheme.Result :=
  KeyExchangeScheme.getScheme KeyExchangeScheme.registry.


(** ** Property descriptors

    [Object.defineProperties] stores each property with its attributes. *)
Record PropertyDescriptor (A : Type) : Type := {
  value : A;
  writable : bool;
  enumerable : bool;
  configurable : bool
}.
Arguments value {A} _.
Arguments writable {A} _.
Arguments enumerable {A} _.
Arguments configurable {A} _.

(** An assignment [o.p = v] to a data property (ECMAScript 5.1, 8.12.5):
    a writable property takes the value; a non-writable one keeps its
    own, silently in sloppy code and with a [TypeError] in strict code. *)
Definition Assign {A} (strict : bool) (p : PropertyDescriptor A) (v : A)
  : Completion (PropertyDescriptor A) :=
  if writable p
  then Normal {| value := v; writable := true;
                 enumerable := enumerable p; configurable := configurable p |}
  else if strict then Throw (TypeError "Cannot assign to read only property")
  else Normal p.

(** The property key of an array element used in [hash[a[i]]]: its string
    conversion.  A string is its own key. *)
Class ToPropertyKey (A : Type) : Type := to_property_key : A → string.
#[global] Instance string_ToPropertyKey : ToPropertyKey string := λ s, s.

(** [Array.prototype.sort()] without a comparator orders strings by their
    code units.  The sorting algorithm is the engine's; on strings the
    result is the one sorted permutation, computed here by merge sort. *)
Definition sort (a : list string) : list string := merge_sort String.le a.

(** [for (var i = 0; i < count; ++i) body], the body run on the state of
    the loop; a [throw] in the body leaves the loop. *)
Fixpoint for_loop {St} (body : nat → St → Completion St) (i count : nat) (s : St)
  : Completion St :=
  match count with
  | 0 => Normal s
  | S count => s ← body i s; for_loop body (S i) count s
  end.

(** The same loop over the elements instead of the indices (see
    [for_loop_from_0]). *)
Fixpoint fold_elements {St A} (step : A → St → Completion St) (l : list A) (s : St)
  : Completion St :=
  match l with
  | [] => Normal s
  | x :: l => s ← step x s; fold_elements step l s
  end.

(** ** The MSL containers *)

(** Modelled from the spec: the classes [MslObject] and [MslArray], which
    are not among the sources.  An MSL object is a "mapping from string
    key to value" where the "last write wins" (the latest write comes
    first in the list); an MSL array is an "ordered, 0-indexed sequence"
    whose [length] and elements [a[i]] are those of the sequence. *)
Module Msl.

Abbreviation MslObject := (list (string * JsValue)).
Abbreviation MslArray := (list JsValue).

Fixpoint opt (mo : MslObject) (key : string) : option JsValue :=
  match mo with
  | [] => None
  | (k, v) :: mo => if bool_decide (k = key) then Some v else opt mo key
  end.

(** Modelled from the spec: [MslObject.optMslArray(key)], the array
    under [key], and [null] when there is none. *)
Definition optMslArray (mo : MslObject) (key : string) : option MslArray :=
  match opt mo key with
  | Some (JsMslArray a) => Some a
  | _ => None
  end.

Definition index_string (index : nat) : string :=
  NilZero.string_of_uint (Nat.to_uint index).

(** The string an element holds, if it is one. *)
Definition as_string (v : JsValue) : option string :=
  match v with
  | JsString s | JsStringObject s => Some s
  | _ => None
  end.

(** The elements of an array that may be [null]. *)
Definition elements_of (a : option MslArray) : list JsValue :=
  match a with Some a => a | None => [] end.

(** Modelled from the spec: [MslArray.getString(index)], the string at
    [index]; a "field present with wrong value type" is an encoding
    fault, raised as [JsonMslArray.getBytes] raises its own. *)
Definition getString (a : MslArray) (index : nat) : Completion string :=
  match a !! index with
  | Some (JsString s) | Some (JsStringObject s) => Normal s
  | _ => Throw (MslEncoderException
                  ("MslArray[" +:+ index_string index +:+ "] is not a string."))
  end.

End Msl.

(** ** msg/MessageCapabilities.js

    The functions are embedded one by one, as they are written.  (The
    object literal of the class lacks the comma that should follow
    [toMslEncoding]; no function below depends on that method.) *)
Module MessageCapabilities.
Section WithEncoder.

(** Declared outside the sources: the encoder formats with
    [MslEncoderFormat.getFormat], the table
    [MslConstants$CompressionAlgorithm] (read at a string key: is the
    entry truthy?) and the string conversion of an MSL object. *)
Context {MslEncoderFormat : Type} `{!ToPropertyKey MslEncoderFormat}.
Variable MslEncoderFormat_getFormat : string → option MslEncoderFormat.
Variable MslConstants_CompressionAlgorithm : string → bool.
Variable MslObject_toString : list (string * JsValue) → string.

Definition KEY_COMPRESSION_ALGOS := "compressionalgos".
Definition KEY_LANGUAGES := "languages".
Definition KEY_ENCODER_FORMATS := "encoderformats".

(** [hash[x]] as a condition: an own entry holds its boolean, an
    inherited built-in is truthy, [undefined] is falsy. *)
Definition truthy (p : Property bool) : bool :=
  match p with
  | Own b => b
  | Inherited _ => true
  | Absent => false
  end.

(** [computeIntersection(a, b)]: the first loop fills [hash], the second
    pushes every [b[i]] whose [hash] entry is truthy. *)
Definition computeIntersection {A} `{!ToPropertyKey A} (a b : list A) : list A :=
  let hash := foldl (λ hash x, Put hash (to_property_key x) true) ∅ a in
  foldl (λ intersection y,
           if truthy (Get hash (to_property_key y))
           then intersection ++ [y] else intersection) [] b.

(** A [MessageCapabilities] object: its three properties. *)
Record t : Type := {
  compressionAlgorithms : PropertyDescriptor (list string);
  languages : PropertyDescriptor (list string);
  encoderFormats : PropertyDescriptor (list MslEncoderFormat)
}.

(** [new MessageCapabilities(compressionAlgos, languages, encoderFormats)]:
    each argument is an array or [null]. *)
Definition init (compressionAlgos languages : option (list string))
    (encoderFormats : option (list MslEncoderFormat)) : t :=
  let compressionAlgos := match compressionAlgos with Some a => a | None => [] end in
  let languages := match languages with Some a => a | None => [] end in
  let encoderFormats := match encoderFormats with Some a => a | None => [] end in
  let compressionAlgos := sort compressionAlgos in
  {| compressionAlgorithms :=
       {| value := compressionAlgos; writable := false; enumerable := true; configurable := false |};
     languages :=
       {| value := languages; writable := false; enumerable := true; configurable := false |};
     encoderFormats :=
       {| value := encoderFormats; writable := false; enumerable := true; configurable := false |} |}.

(** The value of an identifier called as a function inside the closure:
    [computeIntersection] is the one function it declares, and no other
    source file declares one; any other identifier is unresolvable. *)
Definition GetValue {A} `{!ToPropertyKey A} (identifier : string)
  : Completion (list A → list A → list A) :=
  if bool_decide (identifier = "computeIntersection")
  then Normal computeIntersection
  else Throw (ReferenceError identifier).

(** [MessageCapabilities$intersection(mc1, mc2)].  A call evaluates the
    callee before its arguments. *)
Definition intersection (mc1 mc2 : option t) : Completion (option t) :=
  match mc1, mc2 with
  | Some mc1, Some mc2 =>
      f ← GetValue "computeIntersection";
      let compressionAlgos :=
        f (value (compressionAlgorithms mc1)) (value (compressionAlgorithms mc2)) in
      f ← GetValue "computeIntersection";
      let languages := f (value (languages mc1)) (value (languages mc2)) in
      f ← GetValue "computerIntersection";
      let encoderFormats :=
        f (value (encoderFormats mc1)) (value (encoderFormats mc2)) in
      Normal (Some (init (Some compressionAlgos) (Some languages) (Some encoderFormats)))
  | _, _ => Normal None
  end.

(** [MslConstants$CompressionAlgorithm[algo]] as a condition.  The table
    is read at the string conversion of [algo]; the conversion of a
    number, a boolean, [null] or a container names no compression
    algorithm, so only a string can be recognised. *)
Definition CompressionAlgorithm (algo : JsValue) : option string :=
  match algo with
  | JsString s | JsStringObject s =>
      if MslConstants_CompressionAlgorithm s then Some s else None
  | _ => None
  end.

(** The three loops of [parse]; a [null] array is not entered. *)
Definition extractCompressionAlgos (algos : option (list JsValue))
  : Completion (list string) :=
  match algos with
  | None => Normal []
  | Some algos =>
      for_loop (λ i compressionAlgos,
                  match algos !! i ≫= CompressionAlgorithm with
                  | Some algo => Normal (compressionAlgos ++ [algo])
                  | None => Normal compressionAlgos
                  end) 0 (length algos) []
  end.

Definition extractLanguages (langs : option (list JsValue))
  : Completion (list string) :=
  match langs with
  | None => Normal []
  | Some langs =>
      for_loop (λ i languages,
                  lang ← Msl.getString langs i;
                  Normal (languages ++ [lang])) 0 (length langs) []
  end.

Definition extractEncoderFormats (formats : option (list JsValue))
  : Completion (list MslEncoderFormat) :=
  match formats with
  | None => Normal []
  | Some formats =>
      for_loop (λ i encoderFormats,
                  format ← Msl.getString formats i;
                  match MslEncoderFormat_getFormat format with
                  | Some encoderFormat => Normal (encoderFormats ++ [encoderFormat])
                  | None => Normal encoderFormats
                  end) 0 (length formats) []
  end.

(** [MessageCapabilities$parse(capabilitiesMo)]: the [try] block, then
    the [catch] that rethrows an [MslEncoderException] as a parse
    error and anything else unchanged. *)
Definition parse (capabilitiesMo : list (string * JsValue)) : Completion t :=
  let block :=
    compressionAlgos ←
      extractCompressionAlgos (Msl.optMslArray capabilitiesMo KEY_COMPRESSION_ALGOS);
    languages ←
      extractLanguages (Msl.optMslArray capabilitiesMo KEY_LANGUAGES);
    encoderFormats ←
      extractEncoderFormats (Msl.optMslArray capabilitiesMo KEY_ENCODER_FORMATS);
    Normal (init (Some compressionAlgos) (Some languages) (Some encoderFormats)) in
  match block with
  | Normal mc => Normal mc
  | Throw (MslEncoderException m) =>
      Throw (MslEncodingException MSL_PARSE_ERROR
               ("capabilities " +:+ MslObject_toString capabilitiesMo)
               (MslEncoderException m))
  | Throw e => Throw e
  end.

(** The arrays of an encoded capabilities object, and the format an
    element names, if it is a string that names one. *)
Definition compressionalgos_of (capabilitiesMo : list (string * JsValue)) :=
  Msl.elements_of (Msl.optMslArray capabilitiesMo KEY_COMPRESSION_ALGOS).
Definition languages_of (capabilitiesMo : list (string * JsValue)) :=
  Msl.elements_of (Msl.optMslArray capabilitiesMo KEY_LANGUAGES).
Definition encoderformats_of (capabilitiesMo : list (string * JsValue)) :=
  Msl.elements_of (Msl.optMslArray capabilitiesMo KEY_ENCODER_FORMATS).
Definition format_of (v : JsValue) : option MslEncoderFormat :=
  Msl.as_string v ≫= MslEncoderFormat_getFormat.

(** An encoded capabilities object, as its wire shape has it: a
    "language-list (array of strings)" and an "encoder-format-list (array
    of strings mapped through a format-name lookup)".  The entries of the
    compression-algorithm list are left open: known and unknown values
    alike. *)
Definition wire_shape (capabilitiesMo : list (string * JsValue)) : Prop :=
  Forall (λ v, is_Some (Msl.as_string v)) (languages_of capabilitiesMo)
  ∧ Forall (λ v, is_Some (Msl.as_string v)) (encoderformats_of capabilitiesMo).

(** The ways the sources construct a [MessageCapabilities]: a direct
    [new], and [MessageCapabilities$parse]. *)
Inductive constructed : t → Prop :=
  | constructed_new compressionAlgos languages encoderFormats :
      constructed (init compressionAlgos languages encoderFormats)
  | constructed_parse capabilitiesMo mc :
      parse capabilitiesMo = Normal mc → constructed mc.

End WithEncoder.
End MessageCapabilities.

(** ** Continuation pairs *)

(** The [callback] argument of an asynchronous operation. *)
Record Callback (A R : Type) : Type := {
  result : A → R;
  error : Exn → R
}.
Arguments result {A R} _ _.
Arguments error {A R} _ _.

(** Modelled from the spec: [AsyncExecutor(callback, func, thisArg)], which
    is not among the sources.  "A caller invokes an operation with an
    explicit continuation pair (success continuation receiving a result,
    failure continuation receiving an error condition)": [func] runs with
    [thisArg] as its [this]; what it returns goes to [callback.result],
    what it throws to [callback.error]. *)
Definition AsyncExecutor {A R This} (callback : Callback A R)
    (func : This → Completion A) (thisArg : This) : R :=
  match func thisArg with
  | Normal a => result callback a
  | Throw e => error callback e
  end.

(** What a continuation pair received, for a caller that records it. *)
Inductive Delivery (A : Type) : Type :=
  | Result (a : A)
  | Error (e : Exn).
Arguments Result {A} a.
Arguments Error {A} e.

Definition recorder {A} : Callback A (list (Delivery A)) :=
  {| result := λ a, [Result a]; error := λ e, [Error e] |}.

Definition is_Result {A} (d : Delivery A) : bool :=
  match d with Result _ => true | Error _ => false end.

(** ** The ECC crypto context *)
Module EccCryptoContext.
Section WithTypes.

(** The types of the arguments no operation below looks into. *)
Context {MslContext PrivateKey MslEncoderFactory MslEncoderFormat : Type}.

Record t : Type := { privateKey : PrivateKey }.

Definition init (ctx : MslContext) (privateKey : PrivateKey) : t :=
  {| privateKey := privateKey |}.

Definition encrypt {Data R} (this : t) (data : Data) (encoder : MslEncoderFactory)
    (format : MslEncoderFormat) (callback : Callback Data R) : R :=
  AsyncExecutor callback (λ _ : t, Normal data) this.

Definition decrypt {Data R} (this : t) (data : Data) (encoder : MslEncoderFactory)
    (callback : Callback Data R) : R :=
  AsyncExecutor callback (λ _ : t, Normal data) this.

Definition wrap {Key Data R} (this : t) (key : Key) (encoder : MslEncoderFactory)
    (format : MslEncoderFormat) (callback : Callback Data R) : R :=
  AsyncExecutor callback
    (λ _ : t, Throw (MslCryptoException WRAP_NOT_SUPPORTED "ECC does not wrap")) this.

Definition unwrap {Data Algo Usages Key R} (this : t) (data : Data) (algo : Algo)
    (usages : Usages) (encoder : MslEncoderFactory) (callback : Callback Key R) : R :=
  AsyncExecutor callback
    (λ _ : t, Throw (MslCryptoException UNWRAP_NOT_SUPPORTED "ECC does not unwrap")) this.

Definition verify {Data Signature R} (this : t) (data : Data) (signature : Signature)
    (encoder : MslEncoderFactory) (callback : Callback bool R) : R :=
  AsyncExecutor callback
    (λ _ : t, Throw (MslCryptoException VERIFY_NOT_SUPPORTED "ECC does not verify")) this.

End WithTypes.
End EccCryptoContext.

(** ** The JSON MSL array *)
Module JsonMslArray.
Section WithBase.

(** The array object; [get] is inherited from [MslArray] and
    [base64$decode] is a library function, both outside the sources. *)
Context {t : Type}.
Variable get : t → Z → Completion JsValue.
Variable base64_decode : string → Completion JsValue.

Definition index_string (index : Z) : string :=
  NilZero.string_of_int (Z.to_int index).

(** [getBytes(index)]: the four tests on [this.get(index)], in order. *)
Definition getBytes (this : t) (index : Z) : Completion JsValue :=
  value ← get this index;
  match value with
  | JsUint8Array _ => Normal value
  | JsStringObject s => base64_decode s
  | JsString s => base64_decode s
  | _ => Throw (MslEncoderException
                  ("MslArray[" +:+ index_string index +:+ "] is not binary data."))
  end.

End WithBase.
End JsonMslArray.

(** ** A reference configuration

    The parts declared outside the sources, fixed for the examples: the
    compression algorithms that the header comment of
    [MessageCapabilities.js] lists, [enum(GZIP|LZW)]; one encoder format,
    JSON; an MSL array read by position; the standard Base64 alphabet. *)
Module Sample.

Definition CompressionAlgorithm (algo : string) : bool :=
  bool_decide (algo ∈ ["GZIP"; "LZW"]).

Inductive EncoderFormat : Type := JSON.

#[global] Instance EncoderFormat_key : ToPropertyKey EncoderFormat := λ _, "JSON".

Definition getFormat (name : string) : option EncoderFormat :=
  if bool_decide (name = "JSON") then Some JSON else None.

Definition toString (mo : list (string * JsValue)) : string := "[object Object]".

Definition parse : list (string * JsValue) → Completion MessageCapabilities.t :=
  MessageCapabilities.parse getFormat CompressionAlgorithm toString.

(** One recognised and one unrecognised entry in each list. *)
Definition capabilities : list (string * JsValue) :=
  [ ("compressionalgos", JsMslArray [JsString "LZW"; JsString "FOO"; JsString "GZIP"]);
    ("languages", JsMslArray [JsString "en-US"; JsString "fr"]);
    ("encoderformats", JsMslArray [JsString "JSON"; JsString "CBOR"]) ].

(** The same compression algorithms, and a number among the languages. *)
Definition capabilities_with_number : list (string * JsValue) :=
  [ ("compressionalgos", JsMslArray [JsString "GZIP"; JsString "FOO"]);
    ("languages", JsMslArray [JsNumber 7]) ].

(** Modelled from the spec: [MslArray.get(index)], the "indexed get" of
    the sequence; an index outside the sequence is an error. *)
Definition get (this : list JsValue) (index : Z) : Completion JsValue :=
  match (if bool_decide (0 ≤ index)%Z then this !! Z.to_nat index else None) with
  | Some v => Normal v
  | None => Throw (RangeError ("MslArray[" +:+ JsonMslArray.index_string index
                               +:+ "] is negative or exceeds array length."))
  end.

(** Base64 (RFC 4648): the value of a character of the alphabet. *)
Definition sextet (c : ascii) : option N :=
  let n := N_of_ascii c in
  if ((65 <=? n) && (n <=? 90))%N then Some (n - 65)%N
  else if ((97 <=? n) && (n <=? 122))%N then Some (n - 71)%N
  else if ((48 <=? n) && (n <=? 57))%N then Some (n + 4)%N
  else if (n =? 43)%N then Some 62%N
  else if (n =? 47)%N then Some 63%N
  else None.

Definition octet (n : N) : Byte.byte :=
  default Byte.x00 (Byte.of_N (n mod 256)%N).

(** Four characters give three bytes; the last four may end in padding. *)
Fixpoint octets (cs : list ascii) : option (list Byte.byte) :=
  match cs with
  | [] => Some []
  | a :: b :: c :: d :: cs =>
      x ← sextet a; y ← sextet b;
      if Ascii.eqb d "=" then
        match cs with
        | [] =>
            if Ascii.eqb c "=" then Some [octet (x * 4 + y / 16)]
            else z ← sextet c;
                 Some [octet (x * 4 + y / 16); octet (y * 16 + z / 4)]
        | _ => None
        end
      else z ← sextet c; w ← sextet d; rest ← octets cs;
           Some (octet (x * 4 + y / 16) :: octet (y * 16 + z / 4)
                 :: octet (z * 64 + w) :: rest)
  | _ => None
  end%N.

Definition base64_decode (s : string) : Completion JsValue :=
  match octets (String.list_ascii_of_string s) with
  | Some bytes => Normal (JsUint8Array bytes)
  | None => Throw (JsError "Invalid Base64 string.")
  end.

(** An array holding binary data, Base64 text and a number. *)
Definition array : list JsValue :=
  [ JsUint8Array [Byte.x01; Byte.x02; Byte.x03]; JsString "AQID"; JsNumber 7 ].

End Sample.

(** ** More of keyx/KeyExchangeScheme.js: the states of the closure *)
Module KeyExchangeSchemeStates.
Import KeyExchangeScheme.

(** The states the [schemes] map can reach: empty, then any number of
    constructor calls: the five of the script and any later
    [new KeyExchangeScheme(name)], which [Object.freeze] of the
    constructor does not prevent.  The name [__proto__] is left out: an
    object assigned to it becomes the map's prototype, not an entry. *)
Inductive reachable : State → Prop :=
  | reachable_empty : reachable {| schemes := ∅; allocated := 0 |}
  | reachable_new name st :
      name ≠ "__proto__" → reachable st → reachable (snd (new name st)).

End KeyExchangeSchemeStates.

(** ** More of msg/MessageCapabilities.js: [uniqueKey] *)
Module MessageCapabilitiesKey.
Import MessageCapabilities.

(** [a.join(sep)]: the string conversions of the elements, with [sep]
    between two of them; the empty string for the empty array. *)
Fixpoint join {A} `{!ToPropertyKey A} (sep : string) (a : list A) : string :=
  match a with
  | [] => ""
  | x :: a =>
      match a with
      | [] => to_property_key x
      | _ :: _ => to_property_key x +:+ sep +:+ join sep a
      end
  end.

(** [uniqueKey()]: the three joined lists with a bar after the first and
    after the second. *)
Definition uniqueKey {MslEncoderFormat} `{!ToPropertyKey MslEncoderFormat}
    (this : t (MslEncoderFormat := MslEncoderFormat)) : string :=
  (((join ":" (value (compressionAlgorithms this)) +:+ "|")
    +:+ join ":" (value (languages this))) +:+ "|")
  +:+ join ":" (value (encoderFormats this)).

(** A string without the character [c]. *)
Fixpoint free (c : ascii) (s : string) : bool :=
  match s with
  | EmptyString => true
  | String d s => negb (Ascii.eqb d c) && free c s
  end.

(** An entry that [uniqueKey] keeps apart from its neighbours: not empty,
    and with neither a colon nor a bar. *)
Definition plain (s : string) : bool :=
  negb (String.eqb s "") && free ":" s && free "|" s.

(** The pieces of [s] between the occurrences of [c]. *)
Fixpoint pieces (c : ascii) (s : string) : list string :=
  match s with
  | EmptyString => [""]
  | String d s =>
      if Ascii.eqb d c then "" :: pieces c s
      else match pieces c s with
           | [] => [String d ""]
           | w :: ws => String d w :: ws
           end
  end.

(** All entries of the three lists are plain. *)
Definition entries_plain {MslEncoderFormat} `{!ToPropertyKey MslEncoderFormat}
    (this : t (MslEncoderFormat := MslEncoderFormat)) : bool :=
  forallb plain (value (compressionAlgorithms this))
  && forallb plain (value (languages this))
  && forallb (λ format, plain (to_property_key format)) (value (encoderFormats this)).

End MessageCapabilitiesKey.

(** ** More of the JSON MSL array: kinds of values *)
Definition is_Uint8Array (v : JsValue) : bool :=
  match v with JsUint8Array _ => true | _ => false end.

(** ** examples/java/mslcli/common: [CmdArguments]

    The second class of the Java source file: the parser of the command
    line of the MSL client.  A Java exception is explicit: a method that
    may throw returns a [Checked] value. *)
Module CmdArguments.

Inductive JavaException : Type :=
  | IllegalCmdArgumentException (message : string)
  | IllegalArgumentException (message : string).

Inductive Checked (A : Type) : Type :=
  | Returns (a : A)
  | Raises (e : JavaException).
Arguments Returns {A} a.
Arguments Raises {A} e.

#[global] Instance Checked_bind : MBind Checked :=
  λ A B (k : A → Checked B) (c : Checked A),
    match c with
    | Returns a => k a
    | Raises e => Raises e
    end.

Definition P_INT := "-int".
Definition P_CFG := "-cfg".
Definition P_URL := "-url".
Definition P_EID := "-eid".
Definition P_UID := "-uid".
Definition P_KX := "-kx".
Definition P_KXM := "-kxm".
Definition P_ENC := "-enc".
Definition P_SIG := "-sig".
Definition P_NREP := "-nrep".
Definition P_IF := "-if".
Definition P_OF := "-of".
Definition P_MSG := "-msg".
Definition P_PSK := "-psk".
Definition P_MST := "-mst".
Definition P_EAS := "-eas".
Definition P_V := "-v".

Definition supportedArguments : list string :=
  [ P_INT; P_CFG; P_URL; P_EID; P_UID; P_KX; P_KXM; P_ENC; P_SIG; P_NREP;
    P_IF; P_OF; P_MSG; P_PSK; P_MST; P_EAS; P_V ].

(** The double quote of the messages. *)
Definition quote : string := String (ascii_of_nat 34) EmptyString.

(** The variables of the constructor's loop: [argMap], a
    [HashMap<String,String>] in which a key may hold [null], and
    [param], the option that waits for its value ([value] is [null]
    again at the end of every iteration). *)
Record State : Type := {
  argMap : gmap string (option string);
  param : option string
}.

(** [argMap.containsKey(key)] and [argMap.get(key)]: [get] is [null] for a
    missing key and for a key that holds [null]. *)
Definition containsKey (argMap : gmap string (option string)) (key : string) : bool :=
  bool_decide (is_Some (argMap !! key)).

Definition get (argMap : gmap string (option string)) (key : string) : option string :=
  match argMap !! key with
  | Some value => value
  | None => None
  end.

(** One iteration of [for (String s : args)]. *)
Definition step (st : State) (s : string) : Checked State :=
  if bool_decide (s ∈ supportedArguments) then
    if containsKey (argMap st) s then
      Raises (IllegalCmdArgumentException ("Multiple Occurences of " +:+ s))
    else
      match param st with
      | Some param =>
          Raises (IllegalCmdArgumentException ("Missing Value for " +:+ param))
      | None => Returns {| argMap := argMap st; param := Some s |}
      end
  else if String.prefix "-" s && (1 <? String.length s)%nat then
    Raises (IllegalCmdArgumentException ("Illegal Option " +:+ s))
  else
    match param st with
    | Some param =>
        let value := if String.eqb s "-" then None else Some s in
        Returns {| argMap := <[param := value]> (argMap st); param := None |}
    | None =>
        Raises (IllegalCmdArgumentException
                  ("Unexpected Value " +:+ quote +:+ s +:+ quote))
    end.

(** A [for] loop over a list whose body may throw. *)
Fixpoint for_each {St A} (body : St → A → Checked St) (l : list A) (st : St)
  : Checked St :=
  match l with
  | [] => Returns st
  | x :: l => st ← body st x; for_each body l st
  end.

Definition initial : State := {| argMap := ∅; param := None |}.

(** [new CmdArguments(args)]: the map of the new object, or the exception
    of the constructor. *)
Definition new (args : option (list string)) : Checked (gmap string (option string)) :=
  match args with
  | None => Raises (IllegalCmdArgumentException "NULL args")
  | Some args =>
      st ← for_each step args initial;
      match param st with
      | Some param =>
          Raises (IllegalCmdArgumentException
                    ("Missing Value for Option " +:+ quote +:+ param +:+ quote))
      | None => Returns (argMap st)
      end
  end.

(** [this.merge(other)], for an [other] that is not [this] itself: the
    map of [this] afterwards.  The checks come before the first change,
    so an exception leaves the map as it was. *)
Definition merge (argMap : gmap string (option string))
    (other : option (gmap string (option string)))
  : Checked (gmap string (option string)) :=
  match other with
  | None => Raises (IllegalArgumentException "NULL CmdArguments argument")
  | Some other =>
      if containsKey other P_CFG then
        Raises (IllegalCmdArgumentException "Cannot reset Configuration File")
      else if containsKey other P_INT then
        Raises (IllegalCmdArgumentException "Cannot reset Interactive Mode")
      else if containsKey other P_PSK then
        Raises (IllegalCmdArgumentException "Cannot add PSK file interactively")
      else if containsKey other P_MST && containsKey argMap P_MST then
        Raises (IllegalCmdArgumentException "Cannot reset MSL Store File")
      else
        Returns (map_fold (λ key value argMap,
                             match value with
                             | Some value => <[key := Some value]> argMap
                             | None => delete key argMap
                             end) argMap other)
  end.

(** [Boolean.parseBoolean(s)]: is [s], without regard to case, "true"? *)
Definition toLowerCase_char (c : ascii) : ascii :=
  let n := nat_of_ascii c in
  if ((65 <=? n) && (n <=? 90))%nat then ascii_of_nat (n + 32) else c.

Fixpoint toLowerCase (s : string) : string :=
  match s with
  | EmptyString => EmptyString
  | String c s => String (toLowerCase_char c) (toLowerCase s)
  end.

Definition parseBoolean (s : string) : bool := String.eqb (toLowerCase s) "true".

Definition getBoolean (argMap : gmap string (option string)) (name : string)
    (def : bool) : bool :=
  match get argMap name with
  | Some s => parseBoolean s
  | None => def
  end.

Definition getRequiredValue (argMap : gmap string (option string)) (name : string)
  : Checked string :=
  match get argMap name with
  | Some s => Returns s
  | None =>
      Raises (IllegalCmdArgumentException ("Missing Required Argument " +:+ name))
  end.

Definition isInteractive argMap : bool := getBoolean argMap P_INT false.
Definition isEncrypted argMap : bool := getBoolean argMap P_ENC true.
Definition isIntegrityProtected argMap : bool := getBoolean argMap P_SIG true.
Definition isNonReplayable argMap : bool := getBoolean argMap P_NREP false.
Definition isVerbose argMap : bool := getBoolean argMap P_V false.
Definition getEntityId argMap : Checked string := getRequiredValue argMap P_EID.
Definition getEntityAuthenticationScheme argMap : Checked string :=
  getRequiredValue argMap P_EAS.
Definition getUserId argMap : option string := get argMap P_UID.
Definition getKeyExchangeScheme argMap : option string := get argMap P_KX.
Definition getKeyExchangeMechanism argMap : option string := get argMap P_KXM.

(** The invariant of the loop after [n] arguments: the keys are supported
    options, the option that waits is supported and has no entry yet,
    and every entry took two arguments. *)
Definition loop_invariant (st : State) (n : nat) : Prop :=
  (∀ k, is_Some (argMap st !! k) → k ∈ supportedArguments)
  ∧ (∀ p, param st = Some p → p ∈ supportedArguments ∧ argMap st !! p = None)
  ∧ n = (2 * size (argMap st) + match param st with Some _ => 1 | None => 0 end)%nat.

(** A command line written as options with their values. *)
Definition command_line (pairs : list (string * string)) : list string :=
  pairs ≫= λ '(option, value), [option; value].

(** An argument the loop takes for a value: no supported option, and not
    a dash followed by more. *)
Definition is_value (s : string) : bool :=
  negb (bool_decide (s ∈ supportedArguments))
  && negb (String.prefix "-" s && (1 <? String.length s)%nat).

(** What the map holds for a value: [null] for the single dash. *)
Definition stored (value : string) : option string :=
  if String.eqb value "-" then None else Some value.

End CmdArguments.

(** ** Reference inputs for the extra properties *)
Module More.
Import CmdArguments.

(** The capabilities of [Sample.capabilities] with the first two
    compression algorithms exchanged, under one more key. *)
Definition capabilities_swapped : list (string * JsValue) :=
  [ ("extra", JsBoolean true);
    ("compressionalgos", JsMslArray [JsString "FOO"; JsString "LZW"; JsString "GZIP"]);
    ("languages", JsMslArray [JsString "en-US"; JsString "fr"]);
    ("encoderformats", JsMslArray [JsString "JSON"; JsString "CBOR"]) ].

(** A command line: an entity, encryption switched on in capitals, and
    the user removed with the single dash. *)
Definition pairs : list (string * string) :=
  [ ("-eid", "client1"); ("-enc", "TRUE"); ("-uid", "-") ].

Definition args : list string :=
  [ "-eid"; "client1"; "-enc"; "TRUE"; "-uid"; "-" ].

Definition argMap : gmap string (option string) :=
  <["-uid" := None]> (<["-enc" := Some "TRUE"]> (<["-eid" := Some "client1"]> ∅)).

(** Arguments to merge: a store file, and the entity removed. *)
Definition other : gmap string (option string) :=
  <["-mst" := Some "store.dat"]> (<["-eid" := None]> ∅).

Definition merged : gmap string (option string) :=
  <["-mst" := Some "store.dat"]> (<["-uid" := None]> (<["-enc" := Some "TRUE"]> ∅)).

End More.

(** * Properties *)

(** ** The key exchange scheme registry *)
Section KeyExchangeSchemeFacts.
Import KeyExchangeScheme.

Lemma registry_unfold :
  registry =
    <["SYMMETRIC_WRAPPED" := {| ref := 4; name := "SYMMETRIC_WRAPPED" |}]>
   (<["JWK_LADDER" := {| ref := 3; name := "JWK_LADDER" |}]>
   (<["JWE_LADDER" := {| ref := 2; name := "JWE_LADDER" |}]>
   (<["DIFFIE_HELLMAN" := {| ref := 1; name := "DIFFIE_HELLMAN" |}]>
   (<["ASYMMETRIC_WRAPPED" := {| ref := 0; name := "ASYMMETRIC_WRAPPED" |}]> ∅)))).
Proof. reflexivity. Qed.

(** Every entry of the map is filed under its own name. *)
Lemma registry_lookup k s :
  registry !! k = Some s → name s = k ∧ k ∈ scheme_names.
Proof.
  rewrite registry_unfold. unfold scheme_names.
  rewrite !lookup_insert, lookup_empty.
  repeat case_decide; intros; simplify_eq; simpl; set_solver.
Qed.

Lemma registry_dom : dom registry = list_to_set scheme_names.
Proof.
  rewrite registry_unfold. unfold scheme_names.
  rewrite !dom_insert_L, dom_empty_L. set_solver.
Qed.

(** A name that is neither registered nor inherited yields [null]. *)
Lemma getScheme_absent n :
  n ∉ scheme_names → n ∉ Object_prototype → KeyExchangeScheme_getScheme n = Null.
Proof.
  intros Hn Hp. unfold KeyExchangeScheme_getScheme, getScheme, Get.
  destruct (registry !! n) as [s|] eqn:E.
  - apply registry_lookup in E as [_ ?]. contradiction.
  - rewrite bool_decide_eq_false_2 by done. reflexivity.
Qed.

(** An unregistered property name of [Object.prototype] yields the
    inherited built-in. *)
Lemma getScheme_inherited n :
  n ∈ Object_prototype → KeyExchangeScheme_getScheme n = Builtin n.
Proof.
  intros Hp. unfold KeyExchangeScheme_getScheme, getScheme, Get.
  destruct (registry !! n) as [s|] eqn:E.
  - apply registry_lookup in E as [_ Hn]. exfalso.
    assert (Forall (λ k, k ∉ Object_prototype) scheme_names) as Hall
      by (apply (bool_decide_unpack _); vm_compute; exact I).
    rewrite Forall_forall in Hall. exact (Hall n Hn Hp).
  - rewrite bool_decide_eq_true_2 by done. reflexivity.
Qed.

Example getScheme_DIFFIE_HELLMAN :
  KeyExchangeScheme_getScheme "DIFFIE_HELLMAN"
  = Scheme {| ref := 1; name := "DIFFIE_HELLMAN" |}.
Proof. reflexivity. Qed.

Example getScheme_RSA : KeyExchangeScheme_getScheme "RSA" = Null.
Proof. reflexivity. Qed.

Local Ltac only_entry :=
  let k := fresh "k" in let s' := fresh "s" in
  let Hk := fresh "Hk" in let Hn := fresh "Hn" in
  intros k s' Hk Hn;
  destruct (registry_lookup _ _ Hk) as [<- _];
  rewrite Hn in Hk; vm_compute in Hk; injection Hk as <-; reflexivity.

(** C4, at a name the code gets wrong: "constructor" names no registered
    scheme, yet [KeyExchangeScheme$getScheme("constructor")] is not
    [null]: the read [schemes["constructor"]] finds the built-in that
    the map inherits from [Object.prototype], which is truthy and is
    returned. *)
Theorem getScheme_constructor_not_null :
  ("constructor" ∉ scheme_names)
  ∧ registry !! "constructor" = None
  ∧ KeyExchangeScheme_getScheme "constructor" = Builtin "constructor"
  ∧ KeyExchangeScheme_getScheme "constructor" ≠ Null.
Proof.
  split; [apply (bool_decide_unpack _); vm_compute; exact I|].
  split; [reflexivity|]. split; [reflexivity|]. discriminate.
Qed.

(** C5: the map built at initialization holds exactly the five names
    ASYMMETRIC_WRAPPED, DIFFIE_HELLMAN, JWE_LADDER, JWK_LADDER and
    SYMMETRIC_WRAPPED; for each of them [KeyExchangeScheme$getScheme]
    returns the member of [KeyExchangeScheme] of that name, whose [name]
    field is that name, and which is the only registered object with
    that [name]; the five objects are pairwise distinct. *)
Theorem getScheme_five_singletons :
  dom registry = list_to_set scheme_names
  ∧ KeyExchangeScheme_getScheme "ASYMMETRIC_WRAPPED" = Scheme (ASYMMETRIC_WRAPPED members)
  ∧ KeyExchangeScheme_getScheme "DIFFIE_HELLMAN" = Scheme (DIFFIE_HELLMAN members)
  ∧ KeyExchangeScheme_getScheme "JWE_LADDER" = Scheme (JWE_LADDER members)
  ∧ KeyExchangeScheme_getScheme "JWK_LADDER" = Scheme (JWK_LADDER members)
  ∧ KeyExchangeScheme_getScheme "SYMMETRIC_WRAPPED" = Scheme (SYMMETRIC_WRAPPED members)
  ∧ Forall (λ n, ∃ s, KeyExchangeScheme_getScheme n = Scheme s
                      ∧ name s = n
                      ∧ ∀ k s', registry !! k = Some s' → name s' = n → s' = s)
           scheme_names
  ∧ NoDup (ref <$> [ ASYMMETRIC_WRAPPED members; DIFFIE_HELLMAN members;
                     JWE_LADDER members; JWK_LADDER members;
                     SYMMETRIC_WRAPPED members ]).
Proof.
  split; [exact registry_dom|].
  do 5 (split; [reflexivity|]).
  split.
  - repeat apply Forall_cons_2; [..|apply Forall_nil_2];
      (eexists; split; [reflexivity|]; split; [reflexivity|]; only_entry).
  - apply (bool_decide_unpack _). vm_compute. exact I.
Qed.

End KeyExchangeSchemeFacts.

(** ** [computeIntersection] *)
Section ComputeIntersection.
Import MessageCapabilities.
Context {A : Type} `{!ToPropertyKey A}.

(** The map after the first loop. *)
Lemma hash_lookup (a : list A) (hash : gmap string bool) (k : string) :
  foldl (λ hash x, Put hash (to_property_key x) true) hash a !! k
  = if bool_decide (k ∈ to_property_key <$> a ∧ k ≠ "__proto__")
    then Some true else hash !! k.
Proof.
  revert hash. induction a as [|x a IH]; intros hash.
  - rewrite bool_decide_eq_false_2; [done|]. intros [H _]. by apply elem_of_nil in H.
  - cbn [foldl]. rewrite IH, fmap_cons. unfold Put.
    destruct (decide (k ∈ to_property_key <$> a ∧ k ≠ "__proto__")) as [[Hin Hk]|Hn].
    + rewrite !bool_decide_eq_true_2; [done| |done]. split; [by right|done].
    + rewrite (bool_decide_eq_false_2 _ Hn).
      destruct (decide (to_property_key x = "__proto__")) as [Hx|Hx].
      * rewrite (bool_decide_eq_true_2 _ Hx).
        rewrite bool_decide_eq_false_2; [done|].
        intros [[->|Hin]%elem_of_cons Hk]; [done|]. apply Hn. by split.
      * rewrite (bool_decide_eq_false_2 _ Hx).
        destruct (decide (to_property_key x = k)) as [<-|Hxk].
        -- rewrite lookup_insert_eq, bool_decide_eq_true_2; [done|].
           split; [by left|done].
        -- rewrite lookup_insert_ne by done.
           rewrite bool_decide_eq_false_2; [done|].
           intros [[->|Hin]%elem_of_cons Hk]; [done|]. apply Hn. by split.
Qed.

(** The test of the second loop: a key of [a], or a property name of
    [Object.prototype]. *)
Lemma hash_truthy (a : list A) (k : string) :
  truthy (Get (foldl (λ hash x, Put hash (to_property_key x) true) ∅ a) k)
  = bool_decide (k ∈ to_property_key <$> a ∨ k ∈ Object_prototype).
Proof.
  unfold Get. rewrite hash_lookup, lookup_empty.
  destruct (decide (k ∈ to_property_key <$> a ∧ k ≠ "__proto__")) as [[Hin Hk]|Hn].
  - rewrite bool_decide_eq_true_2 by done. simpl.
    symmetry. apply bool_decide_eq_true_2. by left.
  - rewrite (bool_decide_eq_false_2 _ Hn).
    destruct (decide (k ∈ Object_prototype)) as [Hp|Hp].
    + rewrite (bool_decide_eq_true_2 _ Hp). simpl.
      symmetry. apply bool_decide_eq_true_2. by right.
    + rewrite (bool_decide_eq_false_2 _ Hp). simpl.
      symmetry. apply bool_decide_eq_false_2.
      intros [Hin|?]; [|done]. apply Hn. split; [done|].
      intros ->. apply Hp. apply (bool_decide_unpack _). vm_compute. exact I.
Qed.

Lemma push_loop (P : A → bool) (b intersection : list A) :
  foldl (λ intersection y, if P y then intersection ++ [y] else intersection)
        intersection b
  = intersection ++ filter (λ y, P y = true) b.
Proof.
  revert intersection. induction b as [|y b IH]; intros acc; simpl.
  - by rewrite app_nil_r.
  - rewrite IH. rewrite filter_cons. destruct (P y) eqn:E.
    + rewrite decide_True by done. by rewrite <- app_assoc.
    + rewrite decide_False by congruence. done.
Qed.

(** [computeIntersection(a, b)] is [b] without the elements whose key is
    neither a key of [a] nor inherited: the order and the repetitions
    are those of [b]. *)
Lemma computeIntersection_filter (a b : list A) :
  computeIntersection a b
  = filter (λ y, to_property_key y ∈ to_property_key <$> a
                 ∨ to_property_key y ∈ Object_prototype) b.
Proof.
  unfold computeIntersection. rewrite push_loop. simpl.
  apply list_filter_iff. intros y. rewrite hash_truthy.
  by rewrite bool_decide_eq_true.
Qed.

End ComputeIntersection.

(** On strings none of which is a property name of [Object.prototype],
    the result holds exactly the common elements. *)
Lemma computeIntersection_common (a b : list string) (x : string) :
  Forall (λ y, y ∉ Object_prototype) b →
  (x ∈ MessageCapabilities.computeIntersection a b ↔ x ∈ a ∧ x ∈ b).
Proof.
  intros Hb. rewrite computeIntersection_filter, list_elem_of_filter.
  unfold to_property_key, string_ToPropertyKey. rewrite list_fmap_id.
  rewrite Forall_forall in Hb. split.
  - intros [[?|Hp] Hx]; [done|]. by destruct (Hb x Hx).
  - intros [??]. split; [by left|done].
Qed.

(** ** [MessageCapabilities$intersection] *)
Section Intersection.
Import MessageCapabilities.
Context {MslEncoderFormat : Type} `{!ToPropertyKey MslEncoderFormat}.
Implicit Types mc : t (MslEncoderFormat := MslEncoderFormat).

Example null_null_intersection :
  intersection (MslEncoderFormat := MslEncoderFormat) None None = Normal None.
Proof. reflexivity. Qed.

(** C1, at a pair the code gets wrong: for the capabilities
    A = (GZIP and LZW; en-US; no formats) and B = (GZIP; en-US and fr; no
    formats) the helper would give the common compression algorithms
    and languages, but [MessageCapabilities$intersection(A, B)] produces
    no lists at all: it ends in a [ReferenceError]. *)
Theorem intersection_produces_no_lists :
  let A := init (Some ["GZIP"; "LZW"]) (Some ["en-US"]) (Some []) in
  let B := init (Some ["GZIP"]) (Some ["en-US"; "fr"]) (Some []) in
  computeIntersection (value (compressionAlgorithms A)) (value (compressionAlgorithms B))
    = ["GZIP"]
  ∧ computeIntersection (value (languages A)) (value (languages B)) = ["en-US"]
  ∧ intersection (Some A) (Some B) = Throw (ReferenceError "computerIntersection")
  ∧ ∀ mc, intersection (Some A) (Some B) ≠ Normal (Some mc).
Proof.
  intros A B. split; [reflexivity|]. split; [reflexivity|].
  split; [reflexivity|]. intros mc. discriminate.
Qed.

(** C2, which the code violates on every pair: for all non-null
    capabilities the call raises, at the unresolvable callee
    [computerIntersection] of the encoder-format intersection, and
    returns no [MessageCapabilities]. *)
Theorem intersection_raises mc1 mc2 :
  intersection (Some mc1) (Some mc2) = Throw (ReferenceError "computerIntersection").
Proof. reflexivity. Qed.

(** C3: for every capabilities value A, [null] included,
    [MessageCapabilities$intersection(A, null)] and
    [MessageCapabilities$intersection(null, A)] both return [null]. *)
Theorem intersection_null (A : option t) :
  intersection A None = Normal None ∧ intersection None A = Normal None.
Proof. destruct A; split; reflexivity. Qed.

End Intersection.

(** ** Loops over an MSL array *)

Lemma for_loop_elements {St A} (body : nat → St → Completion St)
    (step : A → St → Completion St) (seen rest : list A) (s : St) :
  (∀ i x s, (seen ++ rest) !! i = Some x → body i s = step x s) →
  for_loop body (length seen) (length rest) s = fold_elements step rest s.
Proof.
  revert seen s. induction rest as [|x rest IH]; intros seen s Hbody; [done|].
  cbn [length for_loop fold_elements].
  rewrite (Hbody (length seen) x s) by (by rewrite list_lookup_middle).
  destruct (step x s) as [s'|e]; [|done]. cbn.
  specialize (IH (seen ++ [x]) s'). rewrite length_app in IH. cbn in IH.
  rewrite Nat.add_1_r in IH. apply IH.
  intros i y s0. rewrite <- app_assoc. apply Hbody.
Qed.

Lemma for_loop_from_0 {St A} (body : nat → St → Completion St)
    (step : A → St → Completion St) (l : list A) (s : St) :
  (∀ i x s, l !! i = Some x → body i s = step x s) →
  for_loop body 0 (length l) s = fold_elements step l s.
Proof. intros H. by apply (for_loop_elements body step [] l s). Qed.

(** A loop that pushes what [f] keeps never throws. *)
Lemma fold_elements_push {A B} (f : A → option B) (l : list A) (acc : list B) :
  fold_elements (λ x acc, match f x with
                          | Some y => Normal (acc ++ [y])
                          | None => Normal acc
                          end) l acc
  = Normal (acc ++ omap f l).
Proof.
  revert acc. induction l as [|x l IH]; intros acc; cbn.
  - by rewrite app_nil_r.
  - destruct (f x) as [y|]; cbn; rewrite IH; [by rewrite <- app_assoc|done].
Qed.

Lemma getString_as_string (a : list JsValue) (i : nat) (v : JsValue) :
  a !! i = Some v →
  Msl.getString a i
  = match Msl.as_string v with
    | Some s => Normal s
    | None => Throw (MslEncoderException
                       ("MslArray[" +:+ Msl.index_string i +:+ "] is not a string."))
    end.
Proof. intros H. unfold Msl.getString. rewrite H. by destruct v. Qed.

(** ** [MessageCapabilities$parse] and the constructor *)
Section Parse.
Import Msl MessageCapabilities.
Context {MslEncoderFormat : Type} `{!ToPropertyKey MslEncoderFormat}.
Variable MslEncoderFormat_getFormat : string → option MslEncoderFormat.
Variable MslConstants_CompressionAlgorithm : string → bool.
Variable MslObject_toString : list (string * JsValue) → string.

Local Abbreviation CompressionAlgorithm :=
  (CompressionAlgorithm MslConstants_CompressionAlgorithm).
Local Abbreviation extractCompressionAlgos :=
  (extractCompressionAlgos MslConstants_CompressionAlgorithm).
Local Abbreviation extractEncoderFormats :=
  (extractEncoderFormats MslEncoderFormat_getFormat).
Local Abbreviation parse :=
  (parse MslEncoderFormat_getFormat MslConstants_CompressionAlgorithm
         MslObject_toString).
Local Abbreviation format_of := (format_of MslEncoderFormat_getFormat).
Local Abbreviation constructed :=
  (constructed MslEncoderFormat_getFormat MslConstants_CompressionAlgorithm
               MslObject_toString).

(** The first loop never throws: it keeps the recognised algorithms. *)
Lemma extractCompressionAlgos_eq algos :
  extractCompressionAlgos algos
  = Normal (omap CompressionAlgorithm (elements_of algos)).
Proof.
  destruct algos as [algos|]; [|done]. cbn [extractCompressionAlgos elements_of].
  rewrite (for_loop_from_0 _
    (λ x acc, match CompressionAlgorithm x with
              | Some y => Normal (acc ++ [y]) | None => Normal acc end)).
  - by rewrite fold_elements_push.
  - intros i x s Hx. by rewrite Hx.
Qed.

Lemma extractLanguages_strings langs :
  Forall (λ v, is_Some (as_string v)) (elements_of langs) →
  extractLanguages langs = Normal (omap as_string (elements_of langs)).
Proof.
  destruct langs as [langs|]; [|done]. cbn [extractLanguages elements_of].
  intros Hall.
  rewrite (for_loop_from_0 _
    (λ x acc, match as_string x with
              | Some y => Normal (acc ++ [y]) | None => Normal acc end)).
  - by rewrite fold_elements_push.
  - intros i x s Hx. rewrite (getString_as_string _ _ _ Hx).
    rewrite Forall_forall in Hall.
    destruct (Hall x) as [y ->]; [by eapply list_elem_of_lookup_2|done].
Qed.

Lemma extractEncoderFormats_strings formats :
  Forall (λ v, is_Some (as_string v)) (elements_of formats) →
  extractEncoderFormats formats = Normal (omap format_of (elements_of formats)).
Proof.
  destruct formats as [formats|]; [|done].
  cbn [MessageCapabilities.extractEncoderFormats elements_of].
  intros Hall.
  rewrite (for_loop_from_0 _
    (λ x acc, match format_of x with
              | Some y => Normal (acc ++ [y]) | None => Normal acc end)).
  - by rewrite fold_elements_push.
  - intros i x s Hx. rewrite (getString_as_string _ _ _ Hx).
    rewrite Forall_forall in Hall. unfold format_of.
    destruct (Hall x) as [y ->]; [by eapply list_elem_of_lookup_2|done].
Qed.

(** What [parse] returns was built by the constructor from arrays. *)
Lemma parse_Normal capabilitiesMo mc :
  parse capabilitiesMo = Normal mc →
  ∃ compressionAlgos languages encoderFormats,
    mc = init (Some compressionAlgos) (Some languages) (Some encoderFormats).
Proof.
  unfold MessageCapabilities.parse. rewrite extractCompressionAlgos_eq. cbn.
  destruct (extractLanguages _) as [la|e]; cbn.
  - destruct (extractEncoderFormats _) as [ef|e]; cbn.
    + intros [= <-]. eauto.
    + by destruct e.
  - by destruct e.
Qed.

(** An entry of the compression-algorithm list is recognised when it is
    a string whose read in the table, the test of line 178, is truthy. *)
Lemma CompressionAlgorithm_Some (v : JsValue) (s : string) :
  CompressionAlgorithm v = Some s
  ↔ as_string v = Some s ∧ MslConstants_CompressionAlgorithm s = true.
Proof.
  destruct v; cbn; try (split; [done|by intros [? _]]);
    (destruct (MslConstants_CompressionAlgorithm _) eqn:E; split;
     [by intros [= <-]|by intros [[= <-] _]|done|intros [[= <-] ?]; congruence]).
Qed.

(** C9: for every encoded capabilities object, whatever recognised and
    unrecognised values its compression-algorithm list contains,
    [MessageCapabilities$parse] succeeds, it raises no parse error.  The
    result retains exactly the recognised compression-algorithm values:
    a string is among them exactly when it is an entry of the list that
    the test [MslConstants$CompressionAlgorithm[algo]] of line 178 lets
    pass, and it is there as often as in the list (the constructor
    stores them sorted).  The unrecognised compression algorithms and
    the encoder formats that [MslEncoderFormat.getFormat] does not know
    are dropped silently; the known formats and the languages are kept
    in order. *)
Theorem parse_keeps_recognised capabilitiesMo :
  wire_shape capabilitiesMo →
  ∃ mc, parse capabilitiesMo = Normal mc
    ∧ (∀ s, s ∈ value (compressionAlgorithms mc)
            ↔ ∃ v, v ∈ compressionalgos_of capabilitiesMo
                   ∧ as_string v = Some s
                   ∧ MslConstants_CompressionAlgorithm s = true)
    ∧ value (compressionAlgorithms mc)
        ≡ₚ omap CompressionAlgorithm (compressionalgos_of capabilitiesMo)
    ∧ Sorted String.le (value (compressionAlgorithms mc))
    ∧ value (languages mc) = omap as_string (languages_of capabilitiesMo)
    ∧ value (encoderFormats mc) = omap format_of (encoderformats_of capabilitiesMo).
Proof.
  intros [Hl Hf]. unfold MessageCapabilities.parse.
  rewrite extractCompressionAlgos_eq, (extractLanguages_strings _ Hl),
    (extractEncoderFormats_strings _ Hf). cbn.
  eexists. split; [reflexivity|]. cbn. split; [|repeat split].
  - intros s. unfold sort. rewrite merge_sort_Permutation, list_elem_of_omap.
    split.
    + intros (v & Hv & Hs). apply CompressionAlgorithm_Some in Hs as [??]. eauto.
    + intros (v & Hv & Hs & Ht). exists v. split; [done|].
      by apply CompressionAlgorithm_Some.
  - apply merge_sort_Permutation.
  - apply (Sorted_merge_sort String.le).
Qed.

(** A language entry that is no string is a parse error, whatever the
    compression-algorithm list holds. *)
Lemma parse_language_not_string capabilitiesMo :
  ¬ Forall (λ v, is_Some (as_string v)) (languages_of capabilitiesMo) →
  ∃ details cause, parse capabilitiesMo
                   = Throw (MslEncodingException MSL_PARSE_ERROR details cause).
Proof.
  intros Hl. unfold MessageCapabilities.parse, languages_of in *.
  rewrite extractCompressionAlgos_eq. cbn.
  destruct (Msl.optMslArray capabilitiesMo KEY_LANGUAGES) as [langs|];
    [|by destruct Hl].
  cbn [extractLanguages elements_of] in *.
  assert (∀ (seen rest : list JsValue) (acc : list string),
    langs = seen ++ rest → ¬ Forall (λ v, is_Some (as_string v)) rest →
    ∃ m, for_loop (λ i languages, lang ← Msl.getString langs i;
                                 Normal (languages ++ [lang]))
           (length seen) (length rest) acc = Throw (MslEncoderException m)) as Hloop.
  { intros seen rest. revert seen.
    induction rest as [|x rest IH]; intros seen acc -> Hn; [by destruct Hn|].
    cbn [length for_loop].
    rewrite (getString_as_string _ _ x) by (by rewrite list_lookup_middle).
    destruct (as_string x) as [y|] eqn:Ey; cbn; [|eauto].
    specialize (IH (seen ++ [x]) (acc ++ [y])).
    rewrite length_app, Nat.add_1_r in IH. apply IH; [by rewrite <- app_assoc|].
    intros Hr. apply Hn. constructor; [by rewrite Ey|done]. }
  destruct (Hloop [] langs [] eq_refl Hl) as [m Hm].
  cbn in Hm. rewrite Hm. cbn. eauto.
Qed.

(** C10: for all (possibly [null]) arguments, the constructor stores the
    sorted compression algorithms and the given lists, with the empty
    list in place of a [null]; and every [MessageCapabilities] object,
    constructed directly or by [MessageCapabilities$parse], holds its
    compression algorithms in sorted order and has three non-writable,
    non-configurable fields: an assignment to one of them changes
    nothing. *)
Theorem constructed_invariant
    (compressionAlgos languages' : option (list string))
    (encoderFormats' : option (list MslEncoderFormat)) (mc : t) :
  constructed mc →
  (value (compressionAlgorithms (init compressionAlgos languages' encoderFormats'))
     = sort (default [] compressionAlgos)
   ∧ value (languages (init compressionAlgos languages' encoderFormats'))
     = default [] languages'
   ∧ value (encoderFormats (init compressionAlgos languages' encoderFormats'))
     = default [] encoderFormats')
  ∧ Sorted String.le (value (compressionAlgorithms mc))
  ∧ (writable (compressionAlgorithms mc) = false
     ∧ writable (languages mc) = false
     ∧ writable (encoderFormats mc) = false)
  ∧ (configurable (compressionAlgorithms mc) = false
     ∧ configurable (languages mc) = false
     ∧ configurable (encoderFormats mc) = false)
  ∧ (∀ strict v p, Assign strict (compressionAlgorithms mc) v = Normal p →
                   p = compressionAlgorithms mc)
  ∧ (∀ strict v p, Assign strict (languages mc) v = Normal p → p = languages mc)
  ∧ (∀ strict v p, Assign strict (encoderFormats mc) v = Normal p →
                   p = encoderFormats mc).
Proof.
  intros Hmc. split.
  { by destruct compressionAlgos, languages', encoderFormats'. }
  assert (∃ ca la ef, mc = init ca la ef) as (ca & la & ef & ->).
  { destruct Hmc as [ca la ef|mo mc Hparse]; [eauto|].
    destruct (parse_Normal _ _ Hparse) as (ca & la & ef & ->). eauto. }
  split; [apply (Sorted_merge_sort String.le)|].
  do 2 (split; [done|]).
  repeat split; intros [] v p; cbn; congruence.
Qed.

End Parse.

(** ** The ECC crypto context *)
Section Ecc.
Import EccCryptoContext.
Context {MslContext PrivateKey MslEncoderFactory MslEncoderFormat : Type}.
Context {Key Algo Usages Signature : Type}.
Implicit Types this : t (PrivateKey := PrivateKey).
Implicit Types (encoder : MslEncoderFactory) (format : MslEncoderFormat).
Implicit Types data : list Byte.byte.

(** C6: on every input, [verify], [wrap] and [unwrap] of an ECC crypto
    context hand a "not supported" condition to the error continuation,
    VERIFY_NOT_SUPPORTED, WRAP_NOT_SUPPORTED and UNWRAP_NOT_SUPPORTED
    respectively, three distinct conditions; a caller that records what
    its continuations receive sees that one error and no result. *)
Theorem unsupported_operations_fail {R} this data (signature : Signature)
    (key : Key) (algo : Algo) (usages : Usages) encoder format
    (on_verify : Callback bool R) (on_wrap : Callback (list Byte.byte) R)
    (on_unwrap : Callback Key R) :
  (verify this data signature encoder on_verify
     = error on_verify (MslCryptoException VERIFY_NOT_SUPPORTED "ECC does not verify")
   ∧ wrap this key encoder format on_wrap
     = error on_wrap (MslCryptoException WRAP_NOT_SUPPORTED "ECC does not wrap")
   ∧ unwrap this data algo usages encoder on_unwrap
     = error on_unwrap (MslCryptoException UNWRAP_NOT_SUPPORTED "ECC does not unwrap"))
  ∧ (VERIFY_NOT_SUPPORTED ≠ WRAP_NOT_SUPPORTED
     ∧ VERIFY_NOT_SUPPORTED ≠ UNWRAP_NOT_SUPPORTED
     ∧ WRAP_NOT_SUPPORTED ≠ UNWRAP_NOT_SUPPORTED)
  ∧ (verify this data signature encoder recorder
       = [Error (MslCryptoException VERIFY_NOT_SUPPORTED "ECC does not verify")]
     ∧ wrap this key encoder format (recorder (A := list Byte.byte))
       = [Error (MslCryptoException WRAP_NOT_SUPPORTED "ECC does not wrap")]
     ∧ unwrap this data algo usages encoder (recorder (A := Key))
       = [Error (MslCryptoException UNWRAP_NOT_SUPPORTED "ECC does not unwrap")])
  ∧ (Forall (λ d, is_Result d = false) (verify this data signature encoder recorder)
     ∧ Forall (λ d, is_Result d = false)
              (wrap this key encoder format (recorder (A := list Byte.byte)))
     ∧ Forall (λ d, is_Result d = false)
              (unwrap this data algo usages encoder (recorder (A := Key)))).
Proof.
  split; [by repeat split|]. split; [by repeat split|].
  split; [by repeat split|]. repeat split; by repeat constructor.
Qed.

(** C7: for every byte sequence, [encrypt] and [decrypt] each hand the
    data unchanged to the success continuation, so decrypting what
    [encrypt] delivers hands back the original data. *)
Theorem encrypt_decrypt_pass_through {R} this data encoder format
    (callback : Callback (list Byte.byte) R) :
  encrypt this data encoder format callback = result callback data
  ∧ decrypt this data encoder callback = result callback data
  ∧ encrypt this data encoder format
      {| result := λ ciphertext, decrypt this ciphertext encoder callback;
         error := error callback |}
    = result callback data
  ∧ encrypt this data encoder format recorder = [Result data]
  ∧ decrypt this data encoder recorder = [Result data].
Proof. by repeat split. Qed.

End Ecc.

(** ** [JsonMslArray.getBytes] *)
Section GetBytes.
Import JsonMslArray.
Context {t : Type}.
Variable get : t → Z → Completion JsValue.
Variable base64_decode : string → Completion JsValue.

(** C8: when [index] holds a value, that is when [this.get(index)]
    returns one, [getBytes(index)] returns a [Uint8Array] as it is,
    returns the Base64 decoding of a string (a primitive or a [String]
    object), and raises an [MslEncoderException] for a value of any
    other type. *)
Theorem getBytes_by_type (this : t) (index : Z) (v : JsValue) :
  get this index = Normal v →
  (∀ bytes, v = JsUint8Array bytes →
     getBytes get base64_decode this index = Normal v)
  ∧ (∀ s, v = JsString s ∨ v = JsStringObject s →
       getBytes get base64_decode this index = base64_decode s)
  ∧ ((∀ bytes, v ≠ JsUint8Array bytes) →
     (∀ s, v ≠ JsString s) → (∀ s, v ≠ JsStringObject s) →
     getBytes get base64_decode this index
     = Throw (MslEncoderException
                ("MslArray[" +:+ index_string index +:+ "] is not binary data."))).
Proof.
  intros Hget. unfold getBytes. rewrite Hget. cbn. repeat split.
  - by intros bytes ->.
  - by intros s [-> | ->].
  - intros Hb Hs Ho. destruct v; try done.
    + by destruct (Hs s).
    + by destruct (Ho s).
    + by destruct (Hb bytes).
Qed.

End GetBytes.

(** ** The reference configuration *)
Section Examples.
Import Msl MessageCapabilities.

Example parse_capabilities :
  Sample.parse Sample.capabilities
  = Normal (init (Some ["GZIP"; "LZW"]) (Some ["en-US"; "fr"]) (Some [Sample.JSON])).
Proof. reflexivity. Qed.

Example parse_sorts :
  value (compressionAlgorithms (init (MslEncoderFormat := Sample.EncoderFormat)
                                     (Some ["LZW"; "GZIP"]) None None))
  = ["GZIP"; "LZW"].
Proof. reflexivity. Qed.

Example computeIntersection_repeats :
  computeIntersection ["en"] ["en"; "fr"; "en"] = ["en"; "en"].
Proof. reflexivity. Qed.

Example computeIntersection_inherited :
  computeIntersection ["en"] ["constructor"; "en"] = ["constructor"; "en"].
Proof. reflexivity. Qed.

Example getBytes_text :
  JsonMslArray.getBytes Sample.get Sample.base64_decode Sample.array 1
  = Normal (JsUint8Array [Byte.x01; Byte.x02; Byte.x03]).
Proof. reflexivity. Qed.

Example getBytes_number :
  JsonMslArray.getBytes Sample.get Sample.base64_decode Sample.array 2
  = Throw (MslEncoderException "MslArray[2] is not binary data.").
Proof. reflexivity. Qed.

(** Outside the wire shape: a number in the language list is a "field
    present with wrong value type", and [MessageCapabilities$parse]
    surfaces it as a parse error. *)
Lemma parse_number_language_raises :
  compressionalgos_of Sample.capabilities_with_number
    = [JsString "GZIP"; JsString "FOO"]
  ∧ CompressionAlgorithm Sample.CompressionAlgorithm (JsString "GZIP") = Some "GZIP"
  ∧ CompressionAlgorithm Sample.CompressionAlgorithm (JsString "FOO") = None
  ∧ Sample.parse Sample.capabilities_with_number
    = Throw (MslEncodingException MSL_PARSE_ERROR "capabilities [object Object]"
               (MslEncoderException "MslArray[0] is not a string."))
  ∧ ¬ ∃ mc, Sample.parse Sample.capabilities_with_number = Normal mc.
Proof.
  do 4 (split; [reflexivity|]). intros [mc H]. discriminate H.
Qed.

Lemma parse_keeps_recognised_witness :
  wire_shape Sample.capabilities
  ∧ ∃ mc, Sample.parse Sample.capabilities = Normal mc
      ∧ (∀ s, s ∈ value (compressionAlgorithms mc)
              ↔ ∃ v, v ∈ compressionalgos_of Sample.capabilities
                     ∧ as_string v = Some s
                     ∧ Sample.CompressionAlgorithm s = true)
      ∧ value (compressionAlgorithms mc)
          ≡ₚ omap (CompressionAlgorithm Sample.CompressionAlgorithm)
                  (compressionalgos_of Sample.capabilities)
      ∧ Sorted String.le (value (compressionAlgorithms mc))
      ∧ value (languages mc) = omap as_string (languages_of Sample.capabilities)
      ∧ value (encoderFormats mc)
        = omap (format_of Sample.getFormat) (encoderformats_of Sample.capabilities).
Proof.
  assert (wire_shape Sample.capabilities) as Hw
    by (split; repeat constructor; eexists; reflexivity).
  split; [exact Hw|].
  exact (parse_keeps_recognised Sample.getFormat Sample.CompressionAlgorithm
           Sample.toString Sample.capabilities Hw).
Defined.

Lemma constructed_invariant_witness :
  constructed Sample.getFormat Sample.CompressionAlgorithm Sample.toString
    (init (Some ["GZIP"; "LZW"]) (Some ["en-US"; "fr"]) (Some [Sample.JSON]))
  ∧ value (compressionAlgorithms
             (init (MslEncoderFormat := Sample.EncoderFormat) None None None)) = []
  ∧ Sorted String.le ["GZIP"; "LZW"]
  ∧ ∀ strict v p,
      Assign strict
        (languages (init (Some ["GZIP"; "LZW"]) (Some ["en-US"; "fr"])
                         (Some [Sample.JSON]))) v = Normal p →
      value p = ["en-US"; "fr"].
Proof.
  assert (constructed Sample.getFormat Sample.CompressionAlgorithm Sample.toString
            (init (Some ["GZIP"; "LZW"]) (Some ["en-US"; "fr"]) (Some [Sample.JSON])))
    as Hc by (apply (constructed_parse _ _ _ Sample.capabilities); reflexivity).
  destruct (constructed_invariant Sample.getFormat Sample.CompressionAlgorithm
              Sample.toString None None None _ Hc)
    as ((Hnull & _ & _) & Hsorted & _ & _ & _ & Hlanguages & _).
  split; [exact Hc|]. split; [exact Hnull|]. split; [exact Hsorted|].
  intros strict v p Hp. rewrite (Hlanguages strict v p Hp). reflexivity.
Defined.

Lemma getBytes_by_type_witness :
  Sample.get Sample.array 0 = Normal (JsUint8Array [Byte.x01; Byte.x02; Byte.x03])
  ∧ JsonMslArray.getBytes Sample.get Sample.base64_decode Sample.array 0
    = Normal (JsUint8Array [Byte.x01; Byte.x02; Byte.x03]).
Proof.
  split; [reflexivity|].
  exact (proj1 (getBytes_by_type Sample.get Sample.base64_decode Sample.array 0
                  _ eq_refl) _ eq_refl).
Defined.

End Examples.

(** ** More on the key exchange scheme registry *)
Section KeyExchangeSchemeStatesFacts.
Import KeyExchangeScheme KeyExchangeSchemeStates.

(** Every entry is filed under its own name, and was allocated before
    the next object will be. *)
Lemma reachable_entries st :
  reachable st →
  ∀ k s, schemes st !! k = Some s → name s = k ∧ ref s < allocated st.
Proof.
  induction 1 as [|n st Hn Hst IH]; intros k s; cbn.
  - by rewrite lookup_empty.
  - rewrite lookup_insert. case_decide as Hk.
    + intros [= <-]. cbn. split; [done|lia].
    + intros Hs. destruct (IH k s Hs). split; [done|lia].
Qed.

Lemma initialization_reachable : reachable (snd initialization).
Proof. repeat (apply reachable_new; [discriminate|]). apply reachable_empty. Qed.

(** X1: with the registry as the script leaves it (the five schemes, no
    later construction), [KeyExchangeScheme$getScheme] yields [null] for
    exactly the names that are none of the five registered names and
    none of the property names of [Object.prototype]. *)
Theorem getScheme_null_iff (n : string) :
  KeyExchangeScheme_getScheme n = Null
  ↔ (n ∉ scheme_names) ∧ (n ∉ Object_prototype).
Proof.
  split.
  - intros Hnull. split.
    + intros Hn.
      assert (n ∈ dom registry) as [s Hs]%elem_of_dom
        by (rewrite registry_dom; by apply elem_of_list_to_set).
      revert Hnull. unfold KeyExchangeScheme_getScheme, getScheme, Get.
      by rewrite Hs.
    + intros Hp. by rewrite (getScheme_inherited n Hp) in Hnull.
  - intros [Hn Hp]. by apply getScheme_absent.
Qed.

(** X2: in every reachable state, a scheme that [getScheme] returns for a
    name carries that name. *)
Theorem getScheme_name st n s :
  reachable st → getScheme (schemes st) n = Scheme s → name s = n.
Proof.
  intros Hst. unfold getScheme, Get.
  destruct (schemes st !! n) as [s'|] eqn:E; cbn.
  - intros [= <-]. by destruct (reachable_entries st Hst n s' E).
  - by case_bool_decide.
Qed.

Lemma getScheme_name_witness :
  reachable (snd initialization)
  ∧ getScheme registry "JWE_LADDER" = Scheme {| ref := 2; name := "JWE_LADDER" |}
  ∧ name {| ref := 2; name := "JWE_LADDER" |} = "JWE_LADDER".
Proof.
  split; [exact initialization_reachable|]. split; [reflexivity|].
  exact (getScheme_name (snd initialization) "JWE_LADDER" _
           initialization_reachable eq_refl).
Defined.

(** X3: constructing a scheme and looking its name up.  For every name
    [n] other than [__proto__], and every map of entries (its prototype
    being [Object.prototype]): after [new KeyExchangeScheme(n)],
    [getScheme(n)] returns the object just constructed, whose name is
    [n], and the lookup of every other name is as before. *)
Theorem new_getScheme st n :
  n ≠ "__proto__" →
  getScheme (schemes (snd (new n st))) n = Scheme (fst (new n st))
  ∧ name (fst (new n st)) = n
  ∧ ∀ m, m ≠ n →
      getScheme (schemes (snd (new n st))) m = getScheme (schemes st) m.
Proof.
  intros _. cbn. split; [|split; [done|]].
  - unfold getScheme, Get. by rewrite lookup_insert_eq.
  - intros m Hm. unfold getScheme, Get. by rewrite lookup_insert_ne.
Qed.

Lemma new_getScheme_witness :
  "DIFFIE_HELLMAN" ≠ "__proto__"
  ∧ getScheme (schemes (snd (new "DIFFIE_HELLMAN" (snd initialization))))
      "DIFFIE_HELLMAN"
    = Scheme {| ref := 5; name := "DIFFIE_HELLMAN" |}.
Proof.
  split; [discriminate|].
  exact (proj1 (new_getScheme (snd initialization) "DIFFIE_HELLMAN"
                  ltac:(discriminate))).
Defined.

(** X4: the registry is not closed.  In a reachable state, constructing
    a scheme under a name that is registered replaces the registered
    object: [getScheme] then returns the new object, which is not the
    old one. *)
Theorem new_replaces st n old :
  reachable st → n ≠ "__proto__" → schemes st !! n = Some old →
  getScheme (schemes st) n = Scheme old
  ∧ getScheme (schemes (snd (new n st))) n = Scheme (fst (new n st))
  ∧ fst (new n st) ≠ old.
Proof.
  intros Hst _ Hold. split; [|split].
  - unfold getScheme, Get. by rewrite Hold.
  - cbn. unfold getScheme, Get. by rewrite lookup_insert_eq.
  - destruct (reachable_entries st Hst n old Hold) as [_ Href].
    cbn. intros <-. cbn in Href. lia.
Qed.

Lemma new_replaces_witness :
  reachable (snd initialization)
  ∧ "JWK_LADDER" ≠ "__proto__"
  ∧ registry !! "JWK_LADDER" = Some {| ref := 3; name := "JWK_LADDER" |}
  ∧ fst (new "JWK_LADDER" (snd initialization))
    ≠ {| ref := 3; name := "JWK_LADDER" |}.
Proof.
  split; [exact initialization_reachable|]. split; [discriminate|].
  split; [reflexivity|].
  exact (proj2 (proj2 (new_replaces (snd initialization) "JWK_LADDER" _
                         initialization_reachable ltac:(discriminate) eq_refl))).
Defined.

End KeyExchangeSchemeStatesFacts.

(** ** More on [computeIntersection] *)
Section ComputeIntersectionMore.
Import MessageCapabilities.
Context {A : Type} `{!ToPropertyKey A}.

(** X5: [computeIntersection(a, b)] is a subsequence of [b]: it keeps the
    order of [b], is no longer than [b], and repeats no element that [b]
    does not repeat. *)
Theorem computeIntersection_sublist (a b : list A) :
  computeIntersection a b `sublist_of` b
  ∧ (length (computeIntersection a b) ≤ length b)%nat
  ∧ (NoDup b → NoDup (computeIntersection a b)).
Proof.
  assert (computeIntersection a b `sublist_of` b) as Hsub.
  { rewrite computeIntersection_filter. apply sublist_filter. }
  split; [done|]. split; [by apply sublist_length|].
  intros Hb. by eapply sublist_NoDup.
Qed.

(** X6: an element is in [computeIntersection(a, b)] exactly when it is in
    [b] and its property key is the key of an element of [a] or a
    property name of [Object.prototype]: elements are compared by their
    string conversions, and the inherited names pass for free. *)
Theorem computeIntersection_elem_of (a b : list A) (y : A) :
  y ∈ computeIntersection a b
  ↔ y ∈ b ∧ ((∃ x, x ∈ a ∧ to_property_key x = to_property_key y)
             ∨ to_property_key y ∈ Object_prototype).
Proof.
  rewrite computeIntersection_filter, list_elem_of_filter, list_elem_of_fmap.
  split.
  - intros [[(x & Hk & Hx)|Hp] Hy]; (split; [done|]); [left|by right]. eauto.
  - intros [Hy [(x & Hx & Hk)|Hp]]; (split; [|done]); [left|by right]. eauto.
Qed.

Lemma filter_all (P : A → Prop) `{!∀ x, Decision (P x)} (l : list A) :
  Forall P l → filter P l = l.
Proof.
  induction 1 as [|x l Hx _ IH]; [done|]. by rewrite filter_cons_True, IH.
Qed.

(** X7: intersecting a list with itself gives the list back, whatever its
    elements, their order and their repetitions. *)
Theorem computeIntersection_self (a : list A) : computeIntersection a a = a.
Proof.
  rewrite computeIntersection_filter. apply filter_all.
  apply Forall_forall. intros y Hy. left. apply list_elem_of_fmap. eauto.
Qed.

End ComputeIntersectionMore.

(** X8: on strings none of which is a property name of [Object.prototype],
    [computeIntersection(a, b)] and [computeIntersection(b, a)] hold the
    same elements (their orders are those of [b] and of [a]). *)
Theorem computeIntersection_comm (a b : list string) (x : string) :
  Forall (λ y, y ∉ Object_prototype) a →
  Forall (λ y, y ∉ Object_prototype) b →
  x ∈ MessageCapabilities.computeIntersection a b
  ↔ x ∈ MessageCapabilities.computeIntersection b a.
Proof.
  intros Ha Hb.
  rewrite (computeIntersection_common a b x Hb), (computeIntersection_common b a x Ha).
  tauto.
Qed.

Lemma computeIntersection_comm_witness :
  Forall (λ y, y ∉ Object_prototype) ["en"; "fr"]
  ∧ Forall (λ y, y ∉ Object_prototype) ["fr"; "de"; "en"]
  ∧ ("en" ∈ MessageCapabilities.computeIntersection ["en"; "fr"] ["fr"; "de"; "en"]
     ↔ "en" ∈ MessageCapabilities.computeIntersection ["fr"; "de"; "en"] ["en"; "fr"]).
Proof.
  assert (Forall (λ y, y ∉ Object_prototype) ["en"; "fr"]) as Ha
    by (apply (bool_decide_unpack _); vm_compute; exact I).
  assert (Forall (λ y, y ∉ Object_prototype) ["fr"; "de"; "en"]) as Hb
    by (apply (bool_decide_unpack _); vm_compute; exact I).
  split; [exact Ha|]. split; [exact Hb|].
  exact (computeIntersection_comm ["en"; "fr"] ["fr"; "de"; "en"] "en" Ha Hb).
Defined.

(** ** More on the constructor *)
Section Constructor.
Import MessageCapabilities.
Context {MslEncoderFormat : Type} `{!ToPropertyKey MslEncoderFormat}.
Implicit Types ef : option (list MslEncoderFormat).

(** Sorting forgets the order its argument had. *)
Lemma sort_Permutation (l l' : list string) : l ≡ₚ l' → sort l = sort l'.
Proof.
  intros Hl. apply (Sorted_unique String.le).
  - apply (Sorted_merge_sort String.le).
  - apply (Sorted_merge_sort String.le).
  - unfold sort. by rewrite !merge_sort_Permutation.
Qed.

Lemma sort_sort (l : list string) : sort (sort l) = sort l.
Proof. apply sort_Permutation. apply merge_sort_Permutation. Qed.

(** X9: the constructor forgets the order of the compression algorithms
    it is given: two arrays with the same elements (repetitions counted)
    construct equal objects. *)
Theorem init_Permutation (compressionAlgos compressionAlgos' : list string)
    (languages' : option (list string)) ef :
  compressionAlgos ≡ₚ compressionAlgos' →
  init (Some compressionAlgos) languages' ef
  = init (Some compressionAlgos') languages' ef.
Proof. intros Hp. unfold init. by rewrite (sort_Permutation _ _ Hp). Qed.

(** X10: constructing again from the lists of a constructed object gives
    an equal object: the stored compression algorithms are a permutation
    of the given ones and are already in the order the constructor
    wants. *)
Theorem init_again (compressionAlgos languages' : option (list string)) ef :
  value (compressionAlgorithms (init compressionAlgos languages' ef))
    ≡ₚ default [] compressionAlgos
  ∧ init (Some (value (compressionAlgorithms (init compressionAlgos languages' ef))))
         (Some (value (languages (init compressionAlgos languages' ef))))
         (Some (value (encoderFormats (init compressionAlgos languages' ef))))
    = init compressionAlgos languages' ef.
Proof.
  split.
  - destruct compressionAlgos; [apply merge_sort_Permutation|done].
  - unfold init. cbn. rewrite sort_sort.
    by destruct compressionAlgos, languages', ef.
Qed.

End Constructor.

Lemma init_Permutation_witness :
  ["LZW"; "GZIP"] ≡ₚ ["GZIP"; "LZW"]
  ∧ MessageCapabilities.init (MslEncoderFormat := Sample.EncoderFormat)
      (Some ["LZW"; "GZIP"]) None None
    = MessageCapabilities.init (Some ["GZIP"; "LZW"]) None None.
Proof.
  assert (["LZW"; "GZIP"] ≡ₚ ["GZIP"; "LZW"]) as Hp by apply perm_swap.
  split; [exact Hp|].
  exact (init_Permutation (MslEncoderFormat := Sample.EncoderFormat)
           ["LZW"; "GZIP"] ["GZIP"; "LZW"] None None Hp).
Defined.

(** ** [uniqueKey] *)
Section UniqueKey.
Import MessageCapabilities MessageCapabilitiesKey.

Lemma append_String d s t : String d s +:+ t = String d (s +:+ t).
Proof. reflexivity. Qed.

Lemma append_assoc (s t u : string) : (s +:+ t) +:+ u = s +:+ (t +:+ u).
Proof. induction s as [|d s IH]; [done|]. by rewrite !append_String, IH. Qed.

Lemma free_append c s t : free c (s +:+ t) = free c s && free c t.
Proof.
  induction s as [|d s IH]; [done|].
  rewrite append_String. cbn. rewrite IH. by rewrite andb_assoc.
Qed.

Lemma pieces_free c w : free c w = true → pieces c w = [w].
Proof.
  induction w as [|d w IH]; [done|]. cbn.
  intros [Hd Hw]%andb_true_iff. apply negb_true_iff in Hd. by rewrite Hd, IH.
Qed.

Lemma pieces_append c w s :
  free c w = true → pieces c (w +:+ String c s) = w :: pieces c s.
Proof.
  induction w as [|d w IH].
  - intros _. change ("" +:+ String c s) with (String c s). cbn.
    by rewrite Ascii.eqb_refl.
  - cbn [free]. intros [Hd Hw]%andb_true_iff. apply negb_true_iff in Hd.
    rewrite append_String. cbn [pieces]. by rewrite Hd, IH.
Qed.

Section Join.
Context {A : Type} `{!ToPropertyKey A}.

Lemma join_cons_cons sep (x y : A) (a : list A) :
  join sep (x :: y :: a) = to_property_key x +:+ sep +:+ join sep (y :: a).
Proof. reflexivity. Qed.

(** Cutting a joined list at the separator gives the entries back. *)
Lemma pieces_join c (a : list A) :
  a ≠ [] → Forall (λ x, free c (to_property_key x) = true) a →
  pieces c (join (String c "") a) = to_property_key <$> a.
Proof.
  intros Ha Hall. induction Hall as [|x a Hx Hall IH]; [done|].
  destruct a as [|y a].
  - cbn. by apply pieces_free.
  - rewrite join_cons_cons.
    change (String c "" +:+ join (String c "") (y :: a))
      with (String c (join (String c "") (y :: a))).
    rewrite (pieces_append _ _ _ Hx), IH by done. done.
Qed.

Lemma free_join c sep (a : list A) :
  free c sep = true → Forall (λ x, free c (to_property_key x) = true) a →
  free c (join sep a) = true.
Proof.
  intros Hsep Hall. induction Hall as [|x a Hx Hall IH]; [done|].
  destruct a as [|y a]; [done|].
  rewrite join_cons_cons, !free_append, Hx, Hsep, IH. done.
Qed.

(** Joining is injective on entries that are not empty and do not hold
    the separator. *)
Lemma join_inj c (a b : list A) :
  Forall (λ x, to_property_key x ≠ "" ∧ free c (to_property_key x) = true) a →
  Forall (λ x, to_property_key x ≠ "" ∧ free c (to_property_key x) = true) b →
  join (String c "") a = join (String c "") b →
  to_property_key <$> a = to_property_key <$> b.
Proof.
  assert (∀ l : list A,
    Forall (λ x, to_property_key x ≠ "" ∧ free c (to_property_key x) = true) l →
    l ≠ [] → join (String c "") l ≠ "") as Hne.
  { intros l Hl Hnil Hj.
    assert (pieces c (join (String c "") l) = to_property_key <$> l) as Hp.
    { apply pieces_join; [done|]. eapply Forall_impl; [exact Hl|]. by intros ? [_ ?]. }
    rewrite Hj in Hp. destruct Hl as [|x l [Hx _] Hl]; [done|].
    cbn in Hp. injection Hp as Hp _. by destruct Hx. }
  intros Ha Hb Hj.
  destruct (decide (a = [])) as [->|Hna]; destruct (decide (b = [])) as [->|Hnb].
  - done.
  - symmetry in Hj. by destruct (Hne b Hb Hnb).
  - by destruct (Hne a Ha Hna).
  - rewrite <- (pieces_join c a), <- (pieces_join c b), Hj; [done|done| |done|].
    + eapply Forall_impl; [exact Hb|]. by intros ? [_ ?].
    + eapply Forall_impl; [exact Ha|]. by intros ? [_ ?].
Qed.

Lemma plain_entries (a : list A) :
  forallb (λ x, plain (to_property_key x)) a = true →
  Forall (λ x, to_property_key x ≠ "" ∧ free ":" (to_property_key x) = true) a
  ∧ Forall (λ x, free "|" (to_property_key x) = true) a.
Proof.
  intros H. rewrite forallb_forall in H.
  assert (∀ x, x ∈ a →
    (to_property_key x ≠ "" ∧ free ":" (to_property_key x) = true)
    ∧ free "|" (to_property_key x) = true) as Hx.
  { intros x Hin. apply list_elem_of_In in Hin. specialize (H x Hin).
    unfold plain in H.
    apply andb_true_iff in H as [[Hn Hc]%andb_true_iff Hb].
    split; [split|]; [|done..].
    intros Hk. rewrite Hk in Hn. discriminate Hn. }
  split; apply Forall_forall; intros x Hin; by destruct (Hx x Hin).
Qed.

End Join.

Context {MslEncoderFormat : Type} `{!ToPropertyKey MslEncoderFormat}.
Implicit Types mc : t (MslEncoderFormat := MslEncoderFormat).

(** The three joined lists, read back from the key. *)
Lemma pieces_uniqueKey mc :
  entries_plain mc = true →
  pieces "|" (uniqueKey mc)
  = [ join ":" (value (compressionAlgorithms mc));
      join ":" (value (languages mc));
      join ":" (value (encoderFormats mc)) ].
Proof.
  unfold entries_plain. intros [[Hc Hl]%andb_true_iff Hf]%andb_true_iff.
  destruct (plain_entries _ Hc) as [_ Hc'].
  destruct (plain_entries _ Hl) as [_ Hl'].
  destruct (plain_entries _ Hf) as [_ Hf'].
  unfold uniqueKey. rewrite !append_assoc.
  change ("|" +:+ ?s) with (String "|" s).
  rewrite pieces_append by (by apply free_join).
  change ("|" +:+ ?s) with (String "|" s).
  rewrite pieces_append by (by apply free_join).
  rewrite pieces_free by (by apply free_join). done.
Qed.

(** X11: [uniqueKey] tells capabilities apart whose entries are plain
    (not empty, without colon and bar): two such objects with the same
    key hold the same compression algorithms, the same languages, and
    encoder formats with the same string conversions, each in the same
    order. *)
Theorem uniqueKey_inj mc1 mc2 :
  entries_plain mc1 = true → entries_plain mc2 = true →
  uniqueKey mc1 = uniqueKey mc2 →
  value (compressionAlgorithms mc1) = value (compressionAlgorithms mc2)
  ∧ value (languages mc1) = value (languages mc2)
  ∧ to_property_key <$> value (encoderFormats mc1)
    = to_property_key <$> value (encoderFormats mc2).
Proof.
  intros H1 H2 Hkey.
  pose proof (pieces_uniqueKey mc1 H1) as P1.
  pose proof (pieces_uniqueKey mc2 H2) as P2.
  rewrite Hkey, P2 in P1. injection P1 as Hc Hl Hf.
  unfold entries_plain in H1, H2.
  apply andb_true_iff in H1 as [[Hc1 Hl1]%andb_true_iff Hf1].
  apply andb_true_iff in H2 as [[Hc2 Hl2]%andb_true_iff Hf2].
  split; [|split].
  - rewrite <- (list_fmap_id (value (compressionAlgorithms mc1))),
      <- (list_fmap_id (value (compressionAlgorithms mc2))).
    symmetry. apply (join_inj ":"); [by apply plain_entries..|done].
  - rewrite <- (list_fmap_id (value (languages mc1))),
      <- (list_fmap_id (value (languages mc2))).
    symmetry. apply (join_inj ":"); [by apply plain_entries..|done].
  - symmetry. apply (join_inj ":"); [by apply plain_entries..|done].
Qed.

End UniqueKey.

(** ** More on [MessageCapabilities$parse] *)
Section ParseMore.
Import Msl MessageCapabilities.
Context {MslEncoderFormat : Type} `{!ToPropertyKey MslEncoderFormat}.
Variable MslEncoderFormat_getFormat : string → option MslEncoderFormat.
Variable MslConstants_CompressionAlgorithm : string → bool.
Variable MslObject_toString : list (string * JsValue) → string.

Local Abbreviation CompressionAlgorithm :=
  (CompressionAlgorithm MslConstants_CompressionAlgorithm).
Local Abbreviation extractCompressionAlgos :=
  (extractCompressionAlgos MslConstants_CompressionAlgorithm).
Local Abbreviation extractEncoderFormats :=
  (extractEncoderFormats MslEncoderFormat_getFormat).
Local Abbreviation parse :=
  (parse MslEncoderFormat_getFormat MslConstants_CompressionAlgorithm
         MslObject_toString).

(** A loop throws only what its body throws. *)
Lemma for_loop_Throw {St} (P : Exn → Prop) (body : nat → St → Completion St)
    (i count : nat) (s : St) (e : Exn) :
  (∀ i s e, body i s = Throw e → P e) →
  for_loop body i count s = Throw e → P e.
Proof.
  intros Hbody. revert i s. induction count as [|count IH]; intros i s; [done|].
  cbn [for_loop]. destruct (body i s) as [s'|e'] eqn:E; cbn.
  - apply IH.
  - intros [= <-]. by eapply Hbody.
Qed.

Lemma getString_Throw (a : list JsValue) (i : nat) (e : Exn) :
  getString a i = Throw e → ∃ m, e = MslEncoderException m.
Proof.
  unfold getString. destruct (a !! i) as [[]|]; intros [= <-]; eauto.
Qed.

(** A loop that reads every element with [getString] throws at the first
    element that is no string. *)
Lemma getString_loop_Throw {St} (k : string → St → Completion St)
    (l seen rest : list JsValue) (acc : St) :
  (∀ s st, ∃ st', k s st = Normal st') →
  l = seen ++ rest → ¬ Forall (λ v, is_Some (as_string v)) rest →
  ∃ m, for_loop (λ i st, s ← getString l i; k s st)
         (length seen) (length rest) acc = Throw (MslEncoderException m).
Proof.
  intros Hk. revert seen acc.
  induction rest as [|x rest IH]; intros seen acc -> Hn; [by destruct Hn|].
  cbn [length for_loop].
  rewrite (getString_as_string _ _ x) by (by rewrite list_lookup_middle).
  destruct (as_string x) as [y|] eqn:Ey; cbn; [|eauto].
  destruct (Hk y acc) as [acc' ->]. cbn.
  specialize (IH (seen ++ [x]) acc').
  rewrite length_app, Nat.add_1_r in IH. apply IH; [by rewrite <- app_assoc|].
  intros Hr. apply Hn. constructor; [by rewrite Ey|done].
Qed.

Lemma extractLanguages_Throw langs e :
  extractLanguages langs = Throw e → ∃ m, e = MslEncoderException m.
Proof.
  destruct langs as [langs|]; [|done]. cbn [extractLanguages].
  apply (for_loop_Throw (λ e, ∃ m, e = MslEncoderException m)).
  intros i s e'. destruct (getString langs i) eqn:E; [done|].
  cbn. intros [= <-]. by eapply getString_Throw.
Qed.

Lemma extractEncoderFormats_Throw formats e :
  extractEncoderFormats formats = Throw e → ∃ m, e = MslEncoderException m.
Proof.
  destruct formats as [formats|]; [|done].
  cbn [MessageCapabilities.extractEncoderFormats].
  apply (for_loop_Throw (λ e, ∃ m, e = MslEncoderException m)).
  intros i s e'. destruct (getString formats i) as [f|] eqn:E; cbn.
  - by destruct (MslEncoderFormat_getFormat f).
  - intros [= <-]. by eapply getString_Throw.
Qed.

Lemma extractEncoderFormats_not_strings formats :
  ¬ Forall (λ v, is_Some (as_string v)) (elements_of formats) →
  ∃ m, extractEncoderFormats formats = Throw (MslEncoderException m).
Proof.
  destruct formats as [formats|]; [|by intros []].
  cbn [MessageCapabilities.extractEncoderFormats elements_of]. intros Hn.
  apply (getString_loop_Throw
           (λ format encoderFormats,
              match MslEncoderFormat_getFormat format with
              | Some encoderFormat => Normal (encoderFormats ++ [encoderFormat])
              | None => Normal encoderFormats
              end) formats [] formats []); [|done..].
  intros s st. destruct (MslEncoderFormat_getFormat s); eauto.
Qed.

(** X12: [MessageCapabilities$parse] succeeds exactly when every entry of
    the language list and of the encoder-format list is a string; the
    compression-algorithm list cannot make it fail. *)
Theorem parse_Normal_iff capabilitiesMo :
  (∃ mc, parse capabilitiesMo = Normal mc)
  ↔ Forall (λ v, is_Some (as_string v)) (languages_of capabilitiesMo)
    ∧ Forall (λ v, is_Some (as_string v)) (encoderformats_of capabilitiesMo).
Proof.
  split.
  - intros [mc Hmc].
    destruct (decide (Forall (λ v, is_Some (as_string v))
                        (languages_of capabilitiesMo))) as [Hl|Hl].
    + split; [done|].
      destruct (decide (Forall (λ v, is_Some (as_string v))
                          (encoderformats_of capabilitiesMo))) as [Hf|Hf]; [done|].
      exfalso. revert Hmc. unfold MessageCapabilities.parse.
      rewrite extractCompressionAlgos_eq, (extractLanguages_strings _ Hl).
      destruct (extractEncoderFormats_not_strings _ Hf) as [m ->]. done.
    + exfalso.
      destruct (parse_language_not_string MslEncoderFormat_getFormat
                  MslConstants_CompressionAlgorithm MslObject_toString
                  capabilitiesMo Hl) as (d & c & Hthrow).
      congruence.
  - intros [Hl Hf]. unfold MessageCapabilities.parse.
    rewrite extractCompressionAlgos_eq, (extractLanguages_strings _ Hl),
      (extractEncoderFormats_strings _ _ Hf). cbn. eauto.
Qed.

(** X13: whatever [MessageCapabilities$parse] raises is an
    [MslEncodingException] with the error MSL_PARSE_ERROR, the text
    "capabilities " followed by the string conversion of the object, and
    an [MslEncoderException] as its cause. *)
Theorem parse_Throw capabilitiesMo e :
  parse capabilitiesMo = Throw e →
  ∃ m, e = MslEncodingException MSL_PARSE_ERROR
             ("capabilities " +:+ MslObject_toString capabilitiesMo)
             (MslEncoderException m).
Proof.
  unfold MessageCapabilities.parse. rewrite extractCompressionAlgos_eq. cbn.
  destruct (extractLanguages _) as [la|e1] eqn:El; cbn.
  - destruct (extractEncoderFormats _) as [ef|e2] eqn:Ef; cbn; [done|].
    destruct (extractEncoderFormats_Throw _ _ Ef) as [m ->].
    intros [= <-]. eauto.
  - destruct (extractLanguages_Throw _ _ El) as [m ->].
    intros [= <-]. eauto.
Qed.

Lemma extractLanguages_elements langs langs' :
  elements_of langs = elements_of langs' →
  extractLanguages langs = extractLanguages langs'.
Proof. destruct langs as [[|]|], langs' as [[|]|]; cbn; by intros [=]; subst. Qed.

Lemma extractEncoderFormats_elements formats formats' :
  elements_of formats = elements_of formats' →
  extractEncoderFormats formats = extractEncoderFormats formats'.
Proof. destruct formats as [[|]|], formats' as [[|]|]; cbn; by intros [=]; subst. Qed.

(** X14: the result of [MessageCapabilities$parse] depends on the three
    lists only, and on the compression algorithms up to their order: if
    a second object has the same compression entries in any order, and
    the same language and encoder-format entries (a missing list counts
    as an empty one), it parses to the same capabilities. *)
Theorem parse_Permutation capabilitiesMo capabilitiesMo' mc :
  compressionalgos_of capabilitiesMo ≡ₚ compressionalgos_of capabilitiesMo' →
  languages_of capabilitiesMo = languages_of capabilitiesMo' →
  encoderformats_of capabilitiesMo = encoderformats_of capabilitiesMo' →
  parse capabilitiesMo = Normal mc → parse capabilitiesMo' = Normal mc.
Proof.
  intros Hc Hl Hf. unfold MessageCapabilities.parse.
  rewrite !extractCompressionAlgos_eq. cbn.
  rewrite (extractLanguages_elements _ _ Hl).
  destruct (extractLanguages _) as [la|e]; cbn; [|by destruct e].
  rewrite (extractEncoderFormats_elements _ _ Hf).
  destruct (extractEncoderFormats _) as [ef|e]; cbn; [|by destruct e].
  intros [= <-]. f_equal. unfold init.
  assert (omap CompressionAlgorithm (compressionalgos_of capabilitiesMo')
          ≡ₚ omap CompressionAlgorithm (compressionalgos_of capabilitiesMo)) as Hp
    by (by rewrite Hc).
  unfold compressionalgos_of in Hp. by rewrite (sort_Permutation _ _ Hp).
Qed.

End ParseMore.

(** ** More on [JsonMslArray.getBytes] *)
Section GetBytesMore.
Import JsonMslArray.
Context {t : Type}.
Variable get : t → Z → Completion JsValue.
Variable base64_decode : string → Completion JsValue.

(** X15: [getBytes] returns binary data only: if the Base64 decoder
    returns nothing but [Uint8Array]s, then whatever [getBytes] returns
    is a [Uint8Array]; a held string, number or container is never
    handed back. *)
Theorem getBytes_Uint8Array (this : t) (index : Z) (v : JsValue) :
  (∀ s w, base64_decode s = Normal w → is_Uint8Array w = true) →
  getBytes get base64_decode this index = Normal v →
  is_Uint8Array v = true.
Proof.
  intros Hdec. unfold getBytes. destruct (get this index) as [w|e]; [|done].
  cbn. destruct w; try done.
  - apply Hdec.
  - apply Hdec.
  - by intros [= <-].
Qed.

(** X16: the failures of [getBytes]: the failure of [this.get(index)],
    passed on unchanged; the failure of the Base64 decoder on a held
    string; or "is not binary data" for a held value that is neither a
    [Uint8Array] nor a string. *)
Theorem getBytes_Throw (this : t) (index : Z) (e : Exn) :
  getBytes get base64_decode this index = Throw e →
  get this index = Throw e
  ∨ (∃ v s, get this index = Normal v ∧ Msl.as_string v = Some s
            ∧ base64_decode s = Throw e)
  ∨ (∃ v, get this index = Normal v ∧ is_Uint8Array v = false
          ∧ Msl.as_string v = None
          ∧ e = MslEncoderException
                  ("MslArray[" +:+ index_string index +:+ "] is not binary data.")).
Proof.
  unfold getBytes. destruct (get this index) as [v|e'] eqn:E; cbn.
  - intros H. right.
    destruct v; cbn in H; try (right; eexists; repeat split; congruence);
      try (left; eexists _, _; repeat split; done).
  - intros [= <-]. by left.
Qed.

End GetBytesMore.

Lemma getBytes_Uint8Array_witness :
  (∀ s w, Sample.base64_decode s = Normal w → is_Uint8Array w = true)
  ∧ JsonMslArray.getBytes Sample.get Sample.base64_decode Sample.array 1
    = Normal (JsUint8Array [Byte.x01; Byte.x02; Byte.x03])
  ∧ is_Uint8Array (JsUint8Array [Byte.x01; Byte.x02; Byte.x03]) = true.
Proof.
  assert (∀ s w, Sample.base64_decode s = Normal w → is_Uint8Array w = true) as Hdec.
  { intros s w. unfold Sample.base64_decode.
    destruct (Sample.octets _); [|discriminate]. by intros [= <-]. }
  split; [exact Hdec|]. split; [reflexivity|].
  exact (getBytes_Uint8Array Sample.get Sample.base64_decode Sample.array 1 _
           Hdec eq_refl).
Defined.

Lemma getBytes_Throw_witness :
  JsonMslArray.getBytes Sample.get Sample.base64_decode Sample.array 7
  = Throw (RangeError "MslArray[7] is negative or exceeds array length.")
  ∧ (Sample.get Sample.array 7
     = Throw (RangeError "MslArray[7] is negative or exceeds array length.")
     ∨ (∃ v s, Sample.get Sample.array 7 = Normal v ∧ Msl.as_string v = Some s
               ∧ Sample.base64_decode s
                 = Throw (RangeError "MslArray[7] is negative or exceeds array length."))
     ∨ (∃ v, Sample.get Sample.array 7 = Normal v ∧ is_Uint8Array v = false
             ∧ Msl.as_string v = None
             ∧ RangeError "MslArray[7] is negative or exceeds array length."
               = MslEncoderException
                   ("MslArray[" +:+ JsonMslArray.index_string 7
                    +:+ "] is not binary data."))).
Proof.
  split; [reflexivity|].
  exact (getBytes_Throw Sample.get Sample.base64_decode Sample.array 7 _ eq_refl).
Defined.

(** ** The command-line arguments *)
Section CmdArgumentsFacts.
Import CmdArguments.
Implicit Types (st : State) (m : gmap string (option string)).

Lemma containsKey_true m k : containsKey m k = true ↔ is_Some (m !! k).
Proof. unfold containsKey. by rewrite bool_decide_eq_true. Qed.

Lemma containsKey_false m k : containsKey m k = false ↔ m !! k = None.
Proof.
  unfold containsKey. rewrite bool_decide_eq_false. by rewrite eq_None_not_Some.
Qed.

(** The two iterations that go well. *)
Lemma step_option st s :
  s ∈ supportedArguments → argMap st !! s = None → param st = None →
  step st s = Returns {| argMap := argMap st; param := Some s |}.
Proof.
  intros Hs Hm Hp. unfold step. rewrite (bool_decide_eq_true_2 _ Hs).
  rewrite (proj2 (containsKey_false _ _) Hm). by rewrite Hp.
Qed.

Lemma step_value st p v :
  is_value v = true → param st = Some p →
  step st v = Returns {| argMap := <[p := stored v]> (argMap st); param := None |}.
Proof.
  unfold is_value. intros [Hs Hd]%andb_true_iff Hp.
  apply negb_true_iff in Hs, Hd. unfold step. by rewrite Hs, Hd, Hp.
Qed.

(** What an iteration that goes well has done. *)
Lemma step_Returns st s st' :
  step st s = Returns st' →
  (s ∈ supportedArguments ∧ argMap st !! s = None ∧ param st = None
   ∧ st' = {| argMap := argMap st; param := Some s |})
  ∨ (∃ p, is_value s = true ∧ param st = Some p
          ∧ st' = {| argMap := <[p := stored s]> (argMap st); param := None |}).
Proof.
  unfold step, is_value. case_bool_decide as Hs.
  - destruct (containsKey (argMap st) s) eqn:Hc; [done|].
    apply containsKey_false in Hc.
    destruct (param st) eqn:Hp; [done|]. intros [= <-]. by left.
  - destruct (String.prefix "-" s && (1 <? String.length s)%nat); [done|].
    destruct (param st) as [p|] eqn:Hp; [|done]. intros [= <-]. right. eauto.
Qed.

Lemma for_each_app {St A} (body : St → A → Checked St) (l1 l2 : list A) (s : St) :
  for_each body (l1 ++ l2) s = (s' ← for_each body l1 s; for_each body l2 s').
Proof.
  revert s. induction l1 as [|x l1 IH]; intros s; [done|].
  cbn. destruct (body s x); [apply IH|done].
Qed.

Lemma step_invariant st s st' n :
  loop_invariant st n → step st s = Returns st' → loop_invariant st' (S n).
Proof.
  intros (Hkeys & Hparam & Hn) Hstep.
  destruct (step_Returns _ _ _ Hstep) as [(Hs & Hm & Hp & ->)|(p & Hv & Hp & ->)].
  - split; [done|]. split.
    + cbn. by intros ? [= <-].
    + cbn. rewrite Hp in Hn. lia.
  - destruct (Hparam p Hp) as [Hps Hpm]. split; [|split].
    + cbn. intros k. rewrite lookup_insert. case_decide; [by subst|]. apply Hkeys.
    + cbn. done.
    + cbn. rewrite map_size_insert_None by done. rewrite Hp in Hn. lia.
Qed.

Lemma for_each_invariant args st st' n :
  loop_invariant st n → for_each step args st = Returns st' →
  loop_invariant st' (n + length args).
Proof.
  revert st n. induction args as [|s args IH]; intros st n Hinv; cbn.
  - intros [= <-]. by rewrite Nat.add_0_r.
  - destruct (step st s) as [st1|] eqn:E; [|done]. cbn. intros Hrest.
    replace (n + S (length args))%nat with (S n + length args)%nat by lia.
    eapply IH; [|done]. by eapply step_invariant.
Qed.

Lemma initial_invariant : loop_invariant initial 0.
Proof.
  split; [|split]; cbn.
  - intros k. rewrite lookup_empty. by intros [? ?].
  - done.
  - by rewrite map_size_empty.
Qed.

(** X17: a command line that the constructor accepts consists of options
    with one value each: its map has supported options as keys only, and
    the command line has twice as many arguments as the map has keys. *)
Theorem new_Returns args m :
  new (Some args) = Returns m →
  (∀ k, is_Some (m !! k) → k ∈ supportedArguments)
  ∧ length args = (2 * size m)%nat.
Proof.
  unfold new. destruct (for_each step args initial) as [st|] eqn:E; [|done].
  cbn. destruct (param st) eqn:Hp; [done|]. intros [= <-].
  destruct (for_each_invariant _ _ _ _ initial_invariant E) as (Hk & _ & Hn).
  split; [done|]. rewrite Hp in Hn. cbn in Hn. lia.
Qed.

(** The loop on options that each come with a value. *)
Lemma for_each_pairs (pairs : list (string * string)) m :
  NoDup pairs.*1 →
  Forall (λ '(p, v), p ∈ supportedArguments ∧ is_value v = true) pairs →
  (∀ p, p ∈ pairs.*1 → m !! p = None) →
  ∃ m', for_each step (command_line pairs) {| argMap := m; param := None |}
        = Returns {| argMap := m'; param := None |}
    ∧ (∀ p v, (p, v) ∈ pairs → m' !! p = Some (stored v))
    ∧ (∀ k, k ∉ pairs.*1 → m' !! k = m !! k).
Proof.
  revert m. induction pairs as [|[p v] pairs IH]; intros m Hnd Hall Hm.
  - exists m. split; [done|]. split; [|done]. by intros ?? ?%elem_of_nil.
  - cbn in Hnd. apply NoDup_cons in Hnd as [Hp Hnd].
    apply Forall_cons in Hall as [[Hps Hv] Hall].
    change (command_line ((p, v) :: pairs)) with (p :: v :: command_line pairs).
    cbn [for_each].
    rewrite (step_option _ p Hps) by (try done; apply Hm; cbn; left). cbn.
    rewrite (step_value _ p v Hv) by done. cbn.
    destruct (IH (<[p := stored v]> m) Hnd Hall) as (m' & Hrun & Hin & Hout).
    { intros q Hq. rewrite lookup_insert_ne by (by intros ->).
      apply Hm. cbn. by right. }
    exists m'. split; [done|]. split.
    + intros q w [[= -> ->]|Hqw]%elem_of_cons.
      * by rewrite (Hout p Hp), lookup_insert_eq.
      * by apply Hin.
    + intros k Hk. cbn in Hk. apply not_elem_of_cons in Hk as [Hkp Hk].
      by rewrite (Hout k Hk), lookup_insert_ne.
Qed.

(** X18: a command line of distinct supported options, each followed by
    something the loop takes for a value, is accepted; the map then
    holds every option with its value ([null] for the single dash, which
    [get] reads as missing), and nothing else. *)
Theorem new_command_line (pairs : list (string * string)) :
  NoDup pairs.*1 →
  Forall (λ '(p, v), p ∈ supportedArguments ∧ is_value v = true) pairs →
  ∃ m, new (Some (command_line pairs)) = Returns m
    ∧ (∀ p v, (p, v) ∈ pairs → m !! p = Some (stored v) ∧ get m p = stored v)
    ∧ (∀ k, k ∉ pairs.*1 → m !! k = None).
Proof.
  intros Hnd Hall.
  destruct (for_each_pairs pairs ∅ Hnd Hall) as (m & Hrun & Hin & Hout).
  { intros. apply lookup_empty. }
  exists m. unfold new. fold initial in Hrun. rewrite Hrun. cbn.
  split; [done|]. split.
  - intros p v Hpv. unfold get. by rewrite (Hin p v Hpv).
  - intros k Hk. by rewrite (Hout k Hk), lookup_empty.
Qed.

End CmdArgumentsFacts.

(** ** The command-line arguments: what the constructor refuses, and [merge] *)
Section CmdArgumentsMore.
Import CmdArguments.
Implicit Types (st : State) (m other : gmap string (option string)).

Lemma new_app prefix rest st :
  for_each step prefix initial = Returns st →
  new (Some (prefix ++ rest))
  = (st' ← for_each step rest st;
     match param st' with
     | Some param =>
         Raises (IllegalCmdArgumentException
                   ("Missing Value for Option " +:+ quote +:+ param +:+ quote))
     | None => Returns (argMap st')
     end).
Proof. intros H. unfold new. by rewrite for_each_app, H. Qed.

Lemma new_Returns_state prefix m :
  new (Some prefix) = Returns m →
  for_each step prefix initial = Returns {| argMap := m; param := None |}.
Proof.
  unfold new. destruct (for_each step prefix initial) as [[m' p]|]; [|done].
  cbn. destruct p; [done|]. by intros [= <-].
Qed.

(** X19: an argument that begins with a dash, is longer than the dash and
    is no supported option is refused as an illegal option, wherever it
    stands after arguments that the loop accepted and whatever follows
    it; so no value can begin with a dash. *)
Theorem new_illegal_option prefix s rest st :
  for_each step prefix initial = Returns st →
  s ∉ supportedArguments → String.prefix "-" s = true →
  (1 < String.length s)%nat →
  new (Some (prefix ++ s :: rest))
  = Raises (IllegalCmdArgumentException ("Illegal Option " +:+ s)).
Proof.
  intros Hrun Hs Hd Hlen. rewrite (new_app _ _ _ Hrun). cbn [for_each].
  unfold step. rewrite (bool_decide_eq_false_2 _ Hs), Hd.
  apply Nat.ltb_lt in Hlen. by rewrite Hlen.
Qed.

(** X20: an option that already has its value is refused as a multiple
    occurrence when it comes again, whatever follows it. *)
Theorem new_duplicate prefix s rest st :
  for_each step prefix initial = Returns st →
  is_Some (argMap st !! s) →
  new (Some (prefix ++ s :: rest))
  = Raises (IllegalCmdArgumentException ("Multiple Occurences of " +:+ s)).
Proof.
  intros Hrun Hs. rewrite (new_app _ _ _ Hrun). cbn [for_each].
  destruct (for_each_invariant _ _ _ _ initial_invariant Hrun) as (Hk & _ & _).
  unfold step. rewrite (bool_decide_eq_true_2 _ (Hk s Hs)).
  by rewrite (proj2 (containsKey_true _ _) Hs).
Qed.

(** X21: after an accepted command line, a new option without a value is
    refused: as the last argument it is a missing value for the option;
    followed by another new option (or by itself) it is a missing
    value, whatever comes after. *)
Theorem new_missing_value prefix p m :
  new (Some prefix) = Returns m → p ∈ supportedArguments → m !! p = None →
  new (Some (prefix ++ [p]))
  = Raises (IllegalCmdArgumentException
              ("Missing Value for Option " +:+ quote +:+ p +:+ quote))
  ∧ ∀ q rest, q ∈ supportedArguments → m !! q = None →
      new (Some (prefix ++ p :: q :: rest))
      = Raises (IllegalCmdArgumentException ("Missing Value for " +:+ p)).
Proof.
  intros Hrun%new_Returns_state Hp Hm. split.
  - rewrite (new_app _ _ _ Hrun). cbn [for_each].
    by rewrite (step_option {| argMap := m; param := None |} p Hp Hm eq_refl).
  - intros q rest Hq Hmq. rewrite (new_app _ _ _ Hrun). cbn [for_each].
    rewrite (step_option {| argMap := m; param := None |} p Hp Hm eq_refl). cbn.
    unfold step. cbn. rewrite (bool_decide_eq_true_2 _ Hq).
    by rewrite (proj2 (containsKey_false _ _) Hmq).
Qed.

(** X22: after an accepted command line, an argument that the loop takes
    for a value is refused as an unexpected value, whatever follows:
    every value needs its option in front of it. *)
Theorem new_unexpected_value prefix v rest m :
  new (Some prefix) = Returns m → is_value v = true →
  new (Some (prefix ++ v :: rest))
  = Raises (IllegalCmdArgumentException
              ("Unexpected Value " +:+ quote +:+ v +:+ quote)).
Proof.
  intros Hrun%new_Returns_state Hv. rewrite (new_app _ _ _ Hrun). cbn [for_each].
  unfold is_value in Hv. apply andb_true_iff in Hv as [Hs Hd].
  apply negb_true_iff in Hs, Hd. unfold step. by rewrite Hs, Hd.
Qed.

(** The map after the loop of [merge]. *)
Lemma merge_loop_lookup m other k :
  map_fold (λ key value argMap,
              match value with
              | Some value => <[key := Some value]> argMap
              | None => delete key argMap
              end) m other !! k
  = match other !! k with
    | Some (Some value) => Some (Some value)
    | Some None => None
    | None => m !! k
    end.
Proof.
  revert k. apply (map_fold_weak_ind (λ r o, ∀ k, r !! k = match o !! k with
                                       | Some (Some value) => Some (Some value)
                                       | Some None => None
                                       | None => m !! k
                                       end)).
  - intros k. by rewrite lookup_empty.
  - intros i x o r Hi IH k. destruct (decide (i = k)) as [->|Hik].
    + rewrite lookup_insert_eq. destruct x.
      * by rewrite lookup_insert_eq.
      * by rewrite lookup_delete_eq.
    + rewrite (lookup_insert_ne o) by done. rewrite <- IH. destruct x.
      * by rewrite lookup_insert_ne.
      * by rewrite lookup_delete_ne.
Qed.

Lemma merge_Returns m other m' :
  merge m (Some other) = Returns m' →
  (other !! P_CFG = None ∧ other !! P_INT = None ∧ other !! P_PSK = None
   ∧ (other !! P_MST = None ∨ m !! P_MST = None))
  ∧ m' = map_fold (λ key value argMap,
                     match value with
                     | Some value => <[key := Some value]> argMap
                     | None => delete key argMap
                     end) m other.
Proof.
  unfold merge.
  destruct (containsKey other P_CFG) eqn:Hcfg; [done|].
  destruct (containsKey other P_INT) eqn:Hint; [done|].
  destruct (containsKey other P_PSK) eqn:Hpsk; [done|].
  destruct (containsKey other P_MST && containsKey m P_MST) eqn:Hmst; [done|].
  intros [= <-]. split; [|done].
  apply containsKey_false in Hcfg, Hint, Hpsk.
  apply andb_false_iff in Hmst as [?%containsKey_false|?%containsKey_false]; auto.
Qed.

(** X23: after a [merge] that went well, every option of the other
    arguments with a value has that value, every option that the other
    arguments hold with [null] is gone, and every other option is as it
    was. *)
Theorem merge_lookup m other m' k :
  merge m (Some other) = Returns m' →
  m' !! k = match other !! k with
            | Some (Some value) => Some (Some value)
            | Some None => None
            | None => m !! k
            end
  ∧ get m' k = match other !! k with
               | Some value => value
               | None => get m k
               end.
Proof.
  intros [_ ->]%merge_Returns.
  assert (∀ k', map_fold (λ key value argMap,
              match value with
              | Some value => <[key := Some value]> argMap
              | None => delete key argMap
              end) m other !! k'
            = match other !! k' with
              | Some (Some value) => Some (Some value)
              | Some None => None
              | None => m !! k'
              end) as H by apply merge_loop_lookup.
  split; [apply H|]. unfold get. rewrite H. by destruct (other !! k) as [[]|].
Qed.

(** X24: [merge] goes well exactly when the other arguments hold none of
    the options -cfg, -int and -psk (not even with [null]), and the
    option -mst is not held by both. *)
Theorem merge_Returns_iff m other :
  (∃ m', merge m (Some other) = Returns m')
  ↔ other !! P_CFG = None ∧ other !! P_INT = None ∧ other !! P_PSK = None
    ∧ (other !! P_MST = None ∨ m !! P_MST = None).
Proof.
  split.
  - intros [m' H]. by destruct (merge_Returns _ _ _ H).
  - intros (Hcfg & Hint & Hpsk & Hmst). unfold merge.
    rewrite (proj2 (containsKey_false _ _) Hcfg),
      (proj2 (containsKey_false _ _) Hint), (proj2 (containsKey_false _ _) Hpsk).
    destruct Hmst as [H|H]; rewrite (proj2 (containsKey_false _ _) H);
      rewrite ?andb_false_r; cbn; eauto.
Qed.

(** X25: merging the same arguments a second time: it fails, as a reset
    of the MSL store file, when they hold -mst with a value, and
    otherwise it goes well and changes nothing. *)
Theorem merge_twice m other m' :
  merge m (Some other) = Returns m' →
  merge m' (Some other)
  = match other !! P_MST with
    | Some (Some _) =>
        Raises (IllegalCmdArgumentException "Cannot reset MSL Store File")
    | _ => Returns m'
    end.
Proof.
  intros Hm. destruct (merge_Returns _ _ _ Hm) as [(Hcfg & Hint & Hpsk & _) ->].
  set (m1 := map_fold _ m other).
  assert (∀ k, m1 !! k = match other !! k with
                         | Some (Some value) => Some (Some value)
                         | Some None => None
                         | None => m !! k
                         end) as H1 by apply merge_loop_lookup.
  unfold merge.
  rewrite (proj2 (containsKey_false _ _) Hcfg),
    (proj2 (containsKey_false _ _) Hint), (proj2 (containsKey_false _ _) Hpsk).
  destruct (other !! P_MST) as [[v|]|] eqn:Hmst.
  - rewrite (proj2 (containsKey_true other P_MST)) by (by rewrite Hmst).
    rewrite (proj2 (containsKey_true m1 P_MST)); [done|].
    by rewrite H1, Hmst.
  - rewrite (proj2 (containsKey_false m1 P_MST)) by (by rewrite H1, Hmst).
    rewrite andb_false_r. f_equal. apply map_eq. intros k.
    rewrite merge_loop_lookup, H1. by destruct (other !! k) as [[]|].
  - rewrite (proj2 (containsKey_false other P_MST)) by done.
    cbn. f_equal. apply map_eq. intros k.
    rewrite merge_loop_lookup, H1. by destruct (other !! k) as [[]|].
Qed.

End CmdArgumentsMore.

(** ** The reference inputs of the extra properties *)
Section MoreExamples.
Import Msl MessageCapabilities MessageCapabilitiesKey CmdArguments.

Example uniqueKey_capabilities :
  uniqueKey (init (Some ["LZW"; "GZIP"]) (Some ["en-US"; "fr"]) (Some [Sample.JSON]))
  = "GZIP:LZW|en-US:fr|JSON".
Proof. reflexivity. Qed.

(** Entries with a colon are not told apart. *)
Example uniqueKey_colon :
  uniqueKey (init (MslEncoderFormat := Sample.EncoderFormat) None (Some ["a:b"]) None)
  = uniqueKey (init (MslEncoderFormat := Sample.EncoderFormat) None (Some ["a"; "b"]) None).
Proof. reflexivity. Qed.

Lemma uniqueKey_inj_witness :
  entries_plain (init (Some ["LZW"; "GZIP"]) (Some ["en-US"]) (Some [Sample.JSON])) = true
  ∧ entries_plain (init (Some ["GZIP"; "LZW"]) (Some ["en-US"]) (Some [Sample.JSON])) = true
  ∧ uniqueKey (init (Some ["LZW"; "GZIP"]) (Some ["en-US"]) (Some [Sample.JSON]))
    = uniqueKey (init (Some ["GZIP"; "LZW"]) (Some ["en-US"]) (Some [Sample.JSON]))
  ∧ value (compressionAlgorithms
             (init (Some ["LZW"; "GZIP"]) (Some ["en-US"]) (Some [Sample.JSON])))
    = value (compressionAlgorithms
               (init (Some ["GZIP"; "LZW"]) (Some ["en-US"]) (Some [Sample.JSON]))).
Proof.
  split; [reflexivity|]. split; [reflexivity|]. split; [reflexivity|].
  exact (proj1 (uniqueKey_inj
                  (init (Some ["LZW"; "GZIP"]) (Some ["en-US"]) (Some [Sample.JSON]))
                  (init (Some ["GZIP"; "LZW"]) (Some ["en-US"]) (Some [Sample.JSON]))
                  eq_refl eq_refl eq_refl)).
Defined.

Lemma parse_Throw_witness :
  Sample.parse Sample.capabilities_with_number
  = Throw (MslEncodingException MSL_PARSE_ERROR "capabilities [object Object]"
             (MslEncoderException "MslArray[0] is not a string."))
  ∧ ∃ m, MslEncodingException MSL_PARSE_ERROR "capabilities [object Object]"
           (MslEncoderException "MslArray[0] is not a string.")
         = MslEncodingException MSL_PARSE_ERROR
             ("capabilities " +:+ Sample.toString Sample.capabilities_with_number)
             (MslEncoderException m).
Proof.
  split; [reflexivity|].
  exact (parse_Throw Sample.getFormat Sample.CompressionAlgorithm Sample.toString
           Sample.capabilities_with_number _ eq_refl).
Defined.

Lemma parse_Permutation_witness :
  compressionalgos_of Sample.capabilities
    ≡ₚ compressionalgos_of More.capabilities_swapped
  ∧ languages_of Sample.capabilities = languages_of More.capabilities_swapped
  ∧ encoderformats_of Sample.capabilities
    = encoderformats_of More.capabilities_swapped
  ∧ Sample.parse Sample.capabilities
    = Normal (init (Some ["GZIP"; "LZW"]) (Some ["en-US"; "fr"]) (Some [Sample.JSON]))
  ∧ Sample.parse More.capabilities_swapped
    = Normal (init (Some ["GZIP"; "LZW"]) (Some ["en-US"; "fr"]) (Some [Sample.JSON])).
Proof.
  assert (compressionalgos_of Sample.capabilities
            ≡ₚ compressionalgos_of More.capabilities_swapped) as Hp
    by apply perm_swap.
  split; [exact Hp|]. split; [reflexivity|]. split; [reflexivity|].
  split; [reflexivity|].
  exact (parse_Permutation Sample.getFormat Sample.CompressionAlgorithm
           Sample.toString Sample.capabilities More.capabilities_swapped _
           Hp eq_refl eq_refl eq_refl).
Defined.

Example new_args : new (Some More.args) = Returns More.argMap.
Proof. reflexivity. Qed.

Example getters_args :
  getEntityId More.argMap = Returns "client1"
  ∧ isEncrypted More.argMap = true
  ∧ isIntegrityProtected More.argMap = true
  ∧ isInteractive More.argMap = false
  ∧ getUserId More.argMap = None
  ∧ getEntityAuthenticationScheme More.argMap
    = Raises (IllegalCmdArgumentException "Missing Required Argument -eas").
Proof. repeat split; reflexivity. Qed.

Example merge_other : merge More.argMap (Some More.other) = Returns More.merged.
Proof. reflexivity. Qed.

Lemma new_Returns_witness :
  new (Some More.args) = Returns More.argMap
  ∧ (∀ k, is_Some (More.argMap !! k) → k ∈ supportedArguments)
  ∧ length More.args = (2 * size More.argMap)%nat.
Proof.
  split; [reflexivity|].
  exact (new_Returns More.args More.argMap eq_refl).
Defined.

Lemma new_command_line_witness :
  NoDup More.pairs.*1
  ∧ Forall (λ '(p, v), p ∈ supportedArguments ∧ is_value v = true) More.pairs
  ∧ ∃ m, new (Some (command_line More.pairs)) = Returns m
      ∧ (∀ p v, (p, v) ∈ More.pairs → m !! p = Some (stored v) ∧ get m p = stored v)
      ∧ (∀ k, k ∉ More.pairs.*1 → m !! k = None).
Proof.
  assert (NoDup More.pairs.*1) as Hnd
    by (apply (bool_decide_unpack _); vm_compute; exact I).
  assert (Forall (λ '(p, v), p ∈ supportedArguments ∧ is_value v = true) More.pairs)
    as Hall.
  { repeat constructor; apply (bool_decide_unpack _); vm_compute; exact I. }
  split; [exact Hnd|]. split; [exact Hall|].
  exact (new_command_line More.pairs Hnd Hall).
Defined.

Lemma new_illegal_option_witness :
  for_each step More.args initial
  = Returns {| argMap := More.argMap; param := None |}
  ∧ ("-x" ∉ supportedArguments)
  ∧ String.prefix "-" "-x" = true
  ∧ (1 < String.length "-x")%nat
  ∧ new (Some (More.args ++ "-x" :: ["1"]))
    = Raises (IllegalCmdArgumentException "Illegal Option -x").
Proof.
  assert ("-x" ∉ supportedArguments) as Hx
    by (apply (bool_decide_unpack _); vm_compute; exact I).
  assert (1 < String.length "-x")%nat as Hlen by (cbn; lia).
  split; [reflexivity|]. split; [exact Hx|]. split; [reflexivity|].
  split; [exact Hlen|].
  exact (new_illegal_option More.args "-x" ["1"] _ eq_refl Hx eq_refl Hlen).
Defined.

Lemma new_duplicate_witness :
  for_each step More.args initial
  = Returns {| argMap := More.argMap; param := None |}
  ∧ is_Some (More.argMap !! "-uid")
  ∧ new (Some (More.args ++ "-uid" :: ["bob"]))
    = Raises (IllegalCmdArgumentException "Multiple Occurences of -uid").
Proof.
  assert (is_Some (More.argMap !! "-uid")) as Hs by (eexists; reflexivity).
  split; [reflexivity|]. split; [exact Hs|].
  exact (new_duplicate More.args "-uid" ["bob"]
           {| argMap := More.argMap; param := None |} eq_refl Hs).
Defined.

Lemma new_missing_value_witness :
  new (Some More.args) = Returns More.argMap
  ∧ "-v" ∈ supportedArguments
  ∧ More.argMap !! "-v" = None
  ∧ new (Some (More.args ++ ["-v"]))
    = Raises (IllegalCmdArgumentException
                ("Missing Value for Option " +:+ quote +:+ "-v" +:+ quote)).
Proof.
  assert ("-v" ∈ supportedArguments) as Hv
    by (apply (bool_decide_unpack _); vm_compute; exact I).
  split; [reflexivity|]. split; [exact Hv|]. split; [reflexivity|].
  exact (proj1 (new_missing_value More.args "-v" More.argMap eq_refl Hv eq_refl)).
Defined.

Lemma new_unexpected_value_witness :
  new (Some More.args) = Returns More.argMap
  ∧ is_value "hello" = true
  ∧ new (Some (More.args ++ "hello" :: []))
    = Raises (IllegalCmdArgumentException
                ("Unexpected Value " +:+ quote +:+ "hello" +:+ quote)).
Proof.
  split; [reflexivity|]. split; [reflexivity|].
  exact (new_unexpected_value More.args "hello" [] More.argMap eq_refl eq_refl).
Defined.

Lemma merge_lookup_witness :
  merge More.argMap (Some More.other) = Returns More.merged
  ∧ More.merged !! "-eid" = None
  ∧ get More.merged "-mst" = Some "store.dat".
Proof.
  split; [reflexivity|].
  split.
  - exact (proj1 (merge_lookup More.argMap More.other More.merged "-eid" eq_refl)).
  - exact (proj2 (merge_lookup More.argMap More.other More.merged "-mst" eq_refl)).
Defined.

Lemma merge_twice_witness :
  merge More.argMap (Some More.other) = Returns More.merged
  ∧ merge More.merged (Some More.other)
    = Raises (IllegalCmdArgumentException "Cannot reset MSL Store File").
Proof.
  split; [reflexivity|].
  exact (merge_twice More.argMap More.other More.merged eq_refl).
Defined.

End MoreExamples.

(** ** The command lines that the constructor accepts *)
Section CmdArgumentsShape.
Import CmdArguments.

Lemma for_each_shape (n : nat) (args : list string)
    (m m' : gmap string (option string)) :
  (length args ≤ n)%nat →
  for_each step args {| argMap := m; param := None |}
  = Returns {| argMap := m'; param := None |} →
  ∃ pairs, args = command_line pairs
    ∧ NoDup pairs.*1
    ∧ Forall (λ '(p, v), p ∈ supportedArguments ∧ is_value v = true) pairs
    ∧ (∀ p, p ∈ pairs.*1 → m !! p = None).
Proof.
  revert args m. induction n as [|n IH]; intros args m Hlen Hrun.
  - destruct args; [|cbn in Hlen; lia].
    exists []. repeat split; [constructor|constructor|]. by intros ? ?%elem_of_nil.
  - destruct args as [|s [|v rest]].
    + exists []. repeat split; [constructor|constructor|]. by intros ? ?%elem_of_nil.
    + cbn in Hrun. destruct (step _ s) as [st1|] eqn:E1; [|done]. cbn in Hrun.
      destruct (step_Returns _ _ _ E1) as [(_ & _ & _ & ->)|(p & _ & Hp & _)];
        [|done].
      discriminate Hrun.
    + cbn [for_each] in Hrun.
      destruct (step _ s) as [st1|] eqn:E1; [|done]. cbn in Hrun.
      destruct (step_Returns _ _ _ E1) as [(Hs & Hms & _ & ->)|(p & _ & Hp & _)];
        [|done].
      destruct (step _ v) as [st2|] eqn:E2; [|done]. cbn in Hrun.
      destruct (step_Returns _ _ _ E2) as [(_ & _ & Hp & _)|(p & Hv & [= <-] & ->)];
        [done|].
      cbn in Hrun. cbn in Hlen.
      destruct (IH rest _ ltac:(lia) Hrun) as (pairs & -> & Hnd & Hall & Hfresh).
      exists ((s, v) :: pairs). split; [done|]. split; [|split].
      * cbn. apply NoDup_cons. split; [|done].
        intros Hin. specialize (Hfresh s Hin). by rewrite lookup_insert_eq in Hfresh.
      * by constructor.
      * intros p [->|Hin]%elem_of_cons; [done|].
        specialize (Hfresh p Hin).
        rewrite lookup_insert_ne in Hfresh; [done|].
        intros ->. by rewrite lookup_insert_eq in Hfresh.
Qed.

(** X26: the constructor accepts nothing else: every command line it
    accepts is a sequence of distinct supported options, each followed
    by one argument that is no supported option and no dash followed by
    more. *)
Theorem new_Returns_command_line (args : list string)
    (m : gmap string (option string)) :
  new (Some args) = Returns m →
  ∃ pairs, args = command_line pairs
    ∧ NoDup pairs.*1
    ∧ Forall (λ '(p, v), p ∈ supportedArguments ∧ is_value v = true) pairs.
Proof.
  intros Hrun%new_Returns_state.
  destruct (for_each_shape (length args) args ∅ m (le_n _) Hrun)
    as (pairs & ? & ? & ? & _).
  eauto.
Qed.

Lemma new_Returns_command_line_witness :
  new (Some More.args) = Returns More.argMap
  ∧ ∃ pairs, More.args = command_line pairs
      ∧ NoDup pairs.*1
      ∧ Forall (λ '(p, v), p ∈ supportedArguments ∧ is_value v = true) pairs.
Proof.
  split; [reflexivity|].
  exact (new_Returns_command_line More.args More.argMap eq_refl).
Defined.

End CmdArgumentsShape.
